(** * Shape, strides and indexing core of [ndarray_base]

    A shallow embedding of [include/ndarray/ndarray_base.hpp] and the
    properties of its geometry operations: layout-directed and explicit
    reshaping, element access, and shape broadcasting.

    Conventions of the embedding.
    - [size_type] values are integers in [0, 2^bits); every arithmetic
      operation of the source on them is written with its wrap-around
      ([mulw], [subw], [wrap]).  The width [bits] is a parameter.
    - [array_shape] and [array_strides] are used by the source through the
      interface of [std::vector] ([size], [resize], [front], [back],
      [operator[]]); they are lists here.  An access the vector interface
      leaves undefined (an index past the end, [front]/[back] of an empty
      vector) makes the operation return [None].
    - The backing buffer belongs to the derived class ([data_impl]); it is
      carried in the same record as the shape and the strides.  Its [resize]
      always succeeds: memory exhaustion is not modelled. *)

From Stdlib Require Import ZArith Lia.
From stdpp Require Import base option list numbers.

Local Open Scope Z_scope.

(** ** Vectors *)

Module Vec.

(** [v.resize(n)] / [v.resize(n, x)]: keeps the first [n] elements and pads
    with [x]. *)
Definition resize {A} (x : A) (n : nat) (v : list A) : list A :=
  take n v ++ replicate (n - length v) x.

(** [v[i]] read. *)
Definition get {A} (v : list A) (i : nat) : option A := v !! i.

(** [v[i] = x]. *)
Definition set {A} (v : list A) (i : nat) (x : A) : option (list A) :=
  if decide (i < length v)%nat then Some (<[i := x]> v) else None.

(** [v.front()] read. *)
Definition front {A} (v : list A) : option A := v !! 0%nat.

(** [v.back()] read. *)
Definition back {A} (v : list A) : option A :=
  match length v with
  | O => None
  | S k => v !! k
  end.

(** [v.front() = x]. *)
Definition set_front {A} (v : list A) (x : A) : option (list A) :=
  set v 0 x.

(** [v.back() = x]. *)
Definition set_back {A} (v : list A) (x : A) : option (list A) :=
  match length v with
  | O => None
  | S k => set v k x
  end.

(** [std::fill(v.begin(), v.end(), x)]. *)
Definition fill {A} (x : A) (v : list A) : list A :=
  replicate (length v) x.

End Vec.

(** ** Counted loops *)

(** [for (i = i0; i != 0; --i) body(i)]. *)
Fixpoint for_down {St} (i : nat) (body : nat -> St -> option St) (s : St)
  : option St :=
  match i with
  | O => Some s
  | S j => s' ← body i s; for_down j body s'
  end.

(** [for (i = i0; i < n; ++i) body(i)], with [k = n - i0] iterations left. *)
Fixpoint for_up {St} (k : nat) (i : nat) (body : nat -> St -> option St)
  (s : St) : option St :=
  match k with
  | O => Some s
  | S k' => s' ← body i s; for_up k' (S i) body s'
  end.

(** [enum class layout]. *)
Inductive layout : Set :=
  | row_major
  | column_major.

(** Exact (unbounded) product and dot product, used to state results. *)
Definition product (s : list Z) : Z := foldr Z.mul 1 s.

Fixpoint dot (xs ys : list Z) : Z :=
  match xs, ys with
  | x :: xs', y :: ys' => x * y + dot xs' ys'
  | _, _ => 0
  end.

(** Modelled from the spec: [array_shape<size_type>] and
    [array_strides<size_type>] are declared in [ndindex.hpp], which is not
    among the sources.  The spec describes both as ordered sequences of
    integers, one per dimension, replaced wholesale on reshape; the source
    constructs them with a size ([m_shape(0)]) and uses [size], [resize],
    [front], [back] and [operator[]] on them, the interface of a standard
    sequence container, modelled by [Vec]. *)
Abbreviation shape_type := (list Z) (only parsing).
Abbreviation strides_type := (list Z) (only parsing).

Section Geometry.

(** Width of [size_type]. *)
Variable bits : positive.

(** Element type of the buffer and its value-initialised element. *)
Context {value_type : Type}.
Variable value_init : value_type.

Definition modulus : Z := 2 ^ Z.pos bits.

Definition wrap (x : Z) : Z := x mod modulus.
Definition mulw (x y : Z) : Z := wrap (x * y).
Definition subw (x y : Z) : Z := wrap (x - y).

Local Abbreviation container_type := (list value_type).

(** The object: the two private members of [ndarray_base] and the buffer
    of the derived class reached through [data()]. *)
Record ndarray : Type := mk_ndarray {
  m_shape : shape_type;
  m_strides : strides_type;
  data : container_type
}.

(** [size()], [nb_dim()], [size(dim)]. *)
Definition size (a : ndarray) : nat := length (data a).
Definition nb_dim (a : ndarray) : nat := length (m_shape a).
Definition size_dim (a : ndarray) (dim : nat) : option Z := m_shape a !! dim.

(** Body of the row-major loop:
    [m_strides[i - 1] = m_strides[i] * m_shape[i]]. *)
Definition row_major_body (shape : shape_type) (i : nat) (st : strides_type)
  : option strides_type :=
  x ← Vec.get st i;
  d ← Vec.get shape i;
  Vec.set st (i - 1) (mulw x d).

(** Body of the column-major loop:
    [m_strides[i] = m_strides[i - 1] * m_shape[i - 1]]. *)
Definition column_major_body (shape : shape_type) (i : nat)
  (st : strides_type) : option strides_type :=
  x ← Vec.get st (i - 1);
  d ← Vec.get shape (i - 1);
  Vec.set st i (mulw x d).

(** [reshape(const shape_type&, layout)]. *)
Definition reshape (a : ndarray) (shape : shape_type) (l : layout)
  : option ndarray :=
  let sh := shape in
  let st0 := Vec.resize 0 (length sh) (m_strides a) in
  match l with
  | row_major =>
      st1 ← Vec.set_back st0 1;
      let i0 := Z.to_nat (subw (Z.of_nat (length st1)) 1) in
      st2 ← for_down i0 (row_major_body sh) st1;
      x ← Vec.front st2;
      d ← Vec.front sh;
      Some (mk_ndarray sh st2
              (Vec.resize value_init (Z.to_nat (mulw x d)) (data a)))
  | column_major =>
      st1 ← Vec.set_front st0 1;
      st2 ← for_up (length st1 - 1) 1 (column_major_body sh) st1;
      x ← Vec.back st2;
      d ← Vec.back sh;
      Some (mk_ndarray sh st2
              (Vec.resize value_init (Z.to_nat (mulw x d)) (data a)))
  end.

(** Modelled from the spec: [data_size] is declared in [ndindex.hpp], which
    is not among the sources.  The spec gives the required element count of
    a shape as the product of all its entries; the result is a
    [size_type]. *)
Definition data_size (shape : shape_type) : Z := wrap (product shape).

(** Modelled from the spec: [data_offset] is declared in [ndindex.hpp],
    which is not among the sources.  The spec gives the offset of the
    indices as the dot product of the indices with the strides; the result
    is a [size_type].  The spec speaks of as many indices as strides; for
    another number of indices the pairs present are summed here. *)
Definition data_offset (strides : strides_type) (args : list Z) : Z :=
  wrap (dot args strides).

(** [reshape(const shape_type&, const strides_type&)]. *)
Definition reshape_strides (a : ndarray) (shape : shape_type)
  (strides : strides_type) : ndarray :=
  let sh := shape in
  let st := strides in
  mk_ndarray sh st (Vec.resize value_init (Z.to_nat (data_size sh)) (data a)).

(** The four protected constructors.  [d0] is the buffer of the derived
    object when the base constructor runs; [m_shape(0)] and [m_strides(0)]
    are vectors of size 0. *)
Definition construct_layout (d0 : container_type) (shape : shape_type)
  (l : layout) : option ndarray :=
  reshape (mk_ndarray [] [] d0) shape l.

Definition construct_layout_value (d0 : container_type) (shape : shape_type)
  (value : value_type) (l : layout) : option ndarray :=
  a ← reshape (mk_ndarray [] [] d0) shape l;
  Some (mk_ndarray (m_shape a) (m_strides a) (Vec.fill value (data a))).

Definition construct_strides (d0 : container_type) (shape : shape_type)
  (strides : strides_type) : ndarray :=
  mk_ndarray shape strides
    (Vec.resize value_init (Z.to_nat (data_size shape)) d0).

Definition construct_strides_value (d0 : container_type) (shape : shape_type)
  (strides : strides_type) (value : value_type) : ndarray :=
  mk_ndarray shape strides (Vec.resize value (Z.to_nat (data_size shape)) d0).

(** References into the buffer: a reference is the position it designates.
    [reference] can be read and written through, [const_reference] only
    read. *)
Inductive reference : Set := Ref (pos : nat).
Inductive const_reference : Set := CRef (pos : nat).

(** [data()[index]]: the position designated, when it is inside the
    buffer. *)
Definition subscript (v : container_type) (index : Z) : option nat :=
  if decide (0 <= index < Z.of_nat (length v)) then Some (Z.to_nat index)
  else None.

(** [operator()(Args... args)], mutable and const.  Every argument is
    converted with [static_cast<size_type>]. *)
Definition operator_call (a : ndarray) (args : list Z) : option reference :=
  let index := data_offset (m_strides a) (map wrap args) in
  pos ← subscript (data a) index;
  Some (Ref pos).

Definition operator_call_const (a : ndarray) (args : list Z)
  : option const_reference :=
  let index := data_offset (m_strides a) (map wrap args) in
  pos ← subscript (data a) index;
  Some (CRef pos).

Definition load (a : ndarray) (r : reference) : option value_type :=
  match r with Ref pos => data a !! pos end.

Definition load_const (a : ndarray) (r : const_reference)
  : option value_type :=
  match r with CRef pos => data a !! pos end.

Definition store (a : ndarray) (r : reference) (v : value_type) : ndarray :=
  match r with
  | Ref pos => mk_ndarray (m_shape a) (m_strides a) (<[pos := v]> (data a))
  end.

(** *** Broadcasting *)

(** Modelled from the spec: first step of [ndarray::broadcast_shape]
    ([ndbroadcast.hpp], not among the sources).  Pads a shape on its leading
    side with dimensions of size 1, up to rank [n]. *)
Definition pad_leading (n : nat) (s : shape_type) : shape_type :=
  replicate (n - length s) 1 ++ s.

(** Modelled from the spec: the rule of [ndarray::broadcast_shape] for one
    aligned pair, [a] from the array and [b] from the candidate: [a] if
    [a == b], [b] if [a == 1], [a] if [b == 1], and a failure otherwise. *)
Definition merge_dim (a b : Z) : option Z :=
  if a =? b then Some a
  else if a =? 1 then Some b
  else if b =? 1 then Some a
  else None.

(** Modelled from the spec: the pairs of [ndarray::broadcast_shape] merged
    from the outermost to the innermost, failing as soon as one is
    incompatible. *)
Fixpoint merge_dims (xs ys : shape_type) : option shape_type :=
  match xs, ys with
  | [], [] => Some []
  | a :: xs', b :: ys' =>
      c ← merge_dim a b;
      r ← merge_dims xs' ys';
      Some (c :: r)
  | _, _ => None
  end.

(** Modelled from the spec: the free function [ndarray::broadcast_shape] is
    declared in [ndbroadcast.hpp], which is not among the sources.  Following
    the spec, the shorter shape is padded on its leading side with 1 to the
    common rank and the aligned pairs are merged; the boolean is the success
    signal and the second component is the value left in the output
    argument.  The spec promises nothing about the output on failure: it is
    left as it was here. *)
Definition broadcast_shape (input output : shape_type) : bool * shape_type :=
  let n := Nat.max (length input) (length output) in
  match merge_dims (pad_leading n input) (pad_leading n output) with
  | Some r => (true, r)
  | None => (false, output)
  end.

(** Outcome of a call of the const member [broadcast_shape(shape_type&)]:
    the returned boolean, the value of the argument passed by reference
    after the call, and the object after the call. *)
Record broadcast_outcome : Type := mk_outcome {
  returned : bool;
  shape_after : shape_type;
  self_after : ndarray
}.

(** [ndarray_base::broadcast_shape(shape_type& shape) const], for a callee
    that reads its first argument and writes its second:
    [return callee(m_shape, shape);]. *)
Definition broadcast_shape_via
  (callee : shape_type -> shape_type -> bool * shape_type)
  (a : ndarray) (shape : shape_type) : broadcast_outcome :=
  let r := callee (m_shape a) shape in
  mk_outcome (fst r) (snd r) a.

(** The member function with the callee of the source. *)
Definition ndarray_base_broadcast_shape (a : ndarray) (shape : shape_type)
  : broadcast_outcome :=
  broadcast_shape_via broadcast_shape a shape.

(** *** Example arrays *)

(** Value-initialised row-major arrays of shapes [3,4], [3,1,5] and
    [2,3]. *)
Definition array_3_4 : ndarray :=
  mk_ndarray [3; 4] [4; 1] (replicate 12 value_init).

Definition array_3_1_5 : ndarray :=
  mk_ndarray [3; 1; 5] [5; 5; 1] (replicate 15 value_init).

Definition array_2_3 : ndarray :=
  mk_ndarray [2; 3] [3; 1] (replicate 6 value_init).

(** *** Closed forms of the canonical strides *)

(** Row-major: the stride of a dimension is the product of the dimensions
    after it. *)
Fixpoint row_major_strides (s : shape_type) : strides_type :=
  match s with
  | [] => []
  | _ :: tl => wrap (product tl) :: row_major_strides tl
  end.

(** Column-major: the stride of a dimension is the product of the dimensions
    before it; [acc] is the product so far. *)
Fixpoint column_major_from (acc : Z) (s : shape_type) : strides_type :=
  match s with
  | [] => []
  | d :: tl => wrap acc :: column_major_from (acc * d) tl
  end.

Definition column_major_strides (s : shape_type) : strides_type :=
  column_major_from 1 s.

(** The same two stride vectors computed without wrap-around. *)
Fixpoint row_major_exact (s : shape_type) : strides_type :=
  match s with
  | [] => []
  | _ :: tl => product tl :: row_major_exact tl
  end.

Fixpoint column_major_exact (acc : Z) (s : shape_type) : strides_type :=
  match s with
  | [] => []
  | d :: tl => acc :: column_major_exact (acc * d) tl
  end.

(** Valid index tuples of a shape: one index per dimension, each below the
    size of its dimension. *)
Definition valid_index (s : shape_type) (idx : list Z) : Prop :=
  Forall2 (fun i d => 0 <= i < d) idx s.

(** The canonical strides of a layout. *)
Definition canonical_strides (l : layout) (s : shape_type) : strides_type :=
  match l with
  | row_major => row_major_strides s
  | column_major => column_major_strides s
  end.

(** ** Arithmetic of [size_type] *)

Lemma modulus_gt_1 : 1 < modulus.
Proof. unfold modulus. apply Z.pow_gt_1; lia. Qed.

Lemma wrap_range x : 0 <= wrap x < modulus.
Proof. apply Z.mod_pos_bound. pose proof modulus_gt_1. lia. Qed.

Lemma wrap_small x : 0 <= x < modulus -> wrap x = x.
Proof. apply Z.mod_small. Qed.

Lemma wrap_1 : wrap 1 = 1.
Proof. apply wrap_small. pose proof modulus_gt_1. lia. Qed.

Lemma wrap_wrap x : wrap (wrap x) = wrap x.
Proof. unfold wrap. apply Z.mod_mod. pose proof modulus_gt_1. lia. Qed.

Lemma mulw_wrap_l x y : mulw (wrap x) y = wrap (x * y).
Proof.
  unfold mulw, wrap. apply Z.mul_mod_idemp_l. pose proof modulus_gt_1. lia.
Qed.

Lemma mulw_wrap_r x y : mulw x (wrap y) = wrap (x * y).
Proof.
  unfold mulw, wrap. apply Z.mul_mod_idemp_r. pose proof modulus_gt_1. lia.
Qed.

(** ** Products *)

Lemma product_cons d s : product (d :: s) = d * product s.
Proof. reflexivity. Qed.

Lemma product_app s t : product (s ++ t) = product s * product t.
Proof.
  induction s as [|d s IH]; cbn [app].
  - change (product []) with 1. lia.
  - rewrite !product_cons, IH. lia.
Qed.

Lemma product_drop s i d :
  s !! i = Some d -> product (drop i s) = d * product (drop (S i) s).
Proof.
  intros H. rewrite (drop_S s d i H). apply product_cons.
Qed.

Lemma product_take_S s i d :
  s !! i = Some d -> product (take (S i) s) = product (take i s) * d.
Proof.
  intros H. rewrite (take_S_r s i d H), product_app.
  change (product [d]) with (d * 1). lia.
Qed.

Lemma product_zero s : 0 ∈ s -> product s = 0.
Proof.
  induction s as [|d s IH]; intros H.
  - inversion H.
  - rewrite product_cons. apply elem_of_cons in H as [<-|H]; [lia|].
    rewrite IH by exact H. lia.
Qed.

(** ** Vectors *)

Lemma length_resize {A} (x : A) n v : length (Vec.resize x n v) = n.
Proof.
  unfold Vec.resize. rewrite length_app, length_take, length_replicate. lia.
Qed.

Lemma set_Some {A} (v : list A) i x :
  (i < length v)%nat -> Vec.set v i x = Some (<[i := x]> v).
Proof. intros H. unfold Vec.set. rewrite decide_True; auto. Qed.

(** ** The loops compute the closed forms *)

Lemma length_row_major_strides s : length (row_major_strides s) = length s.
Proof. induction s; simpl; congruence. Qed.

Lemma lookup_row_major_strides s i :
  (i < length s)%nat ->
  row_major_strides s !! i = Some (wrap (product (drop (S i) s))).
Proof.
  revert i. induction s as [|d s IH]; intros i H; simpl in *; [lia|].
  destruct i as [|i]; simpl.
  - rewrite drop_0. reflexivity.
  - apply IH. lia.
Qed.

Lemma length_column_major_from acc s :
  length (column_major_from acc s) = length s.
Proof. revert acc. induction s; intros; simpl; congruence. Qed.

Lemma lookup_column_major_from acc s i :
  (i < length s)%nat ->
  column_major_from acc s !! i = Some (wrap (acc * product (take i s))).
Proof.
  revert acc i. induction s as [|d s IH]; intros acc i H; [simpl in H; lia|].
  cbn [length] in H. destruct i as [|i]; cbn [column_major_from take].
  - change (product []) with 1. rewrite Z.mul_1_r. reflexivity.
  - rewrite lookup_cons, IH by lia. rewrite product_cons.
    f_equal. f_equal. lia.
Qed.

Lemma length_column_major_strides s :
  length (column_major_strides s) = length s.
Proof. apply length_column_major_from. Qed.

Lemma lookup_column_major_strides s i :
  (i < length s)%nat ->
  column_major_strides s !! i = Some (wrap (product (take i s))).
Proof.
  intros H. unfold column_major_strides.
  rewrite lookup_column_major_from by exact H. rewrite Z.mul_1_l. reflexivity.
Qed.

Lemma for_down_row_major s v i :
  length v = length s ->
  (i < length s)%nat ->
  (forall k, (i <= k)%nat -> v !! k = row_major_strides s !! k) ->
  for_down i (row_major_body s) v = Some (row_major_strides s).
Proof.
  revert v. induction i as [|j IH]; intros v Hlen Hi Hinv.
  - simpl. f_equal. apply list_eq. intros k. apply Hinv. lia.
  - destruct (lookup_lt_is_Some_2 s (S j) Hi) as [d Hd].
    cbn [for_down]. unfold row_major_body, Vec.get.
    rewrite (Hinv (S j)) by lia.
    rewrite lookup_row_major_strides by lia.
    rewrite Hd. cbn [mbind option_bind].
    replace (S j - 1)%nat with j by lia.
    rewrite set_Some by lia. cbn [mbind option_bind].
    apply IH.
    + rewrite length_insert. exact Hlen.
    + lia.
    + intros k Hk. destruct (decide (k = j)) as [->|Hne].
      * rewrite list_lookup_insert_eq by lia.
        rewrite lookup_row_major_strides by lia.
        rewrite (product_drop s (S j) d Hd).
        rewrite mulw_wrap_l. f_equal. f_equal. lia.
      * rewrite list_lookup_insert_ne by lia. apply Hinv. lia.
Qed.

Lemma for_up_column_major s v k i :
  length v = length s ->
  (k + i = length s)%nat ->
  (1 <= i)%nat ->
  (forall j, (j < i)%nat -> v !! j = column_major_strides s !! j) ->
  for_up k i (column_major_body s) v = Some (column_major_strides s).
Proof.
  revert v i. induction k as [|k IH]; intros v i Hlen Hk Hi Hinv.
  - simpl. f_equal. apply list_eq. intros j.
    destruct (decide (j < i)%nat) as [Hlt|Hge]; [apply Hinv; exact Hlt|].
    rewrite !lookup_ge_None_2; auto.
    + rewrite length_column_major_strides. lia.
    + lia.
  - assert (Hi' : (i - 1 < length s)%nat) by lia.
    destruct (lookup_lt_is_Some_2 s (i - 1) Hi') as [d Hd].
    cbn [for_up]. unfold column_major_body, Vec.get.
    rewrite (Hinv (i - 1)%nat) by lia.
    rewrite lookup_column_major_strides by lia.
    rewrite Hd. cbn [mbind option_bind].
    rewrite set_Some by lia. cbn [mbind option_bind].
    apply IH.
    + rewrite length_insert. exact Hlen.
    + lia.
    + lia.
    + intros j Hj. destruct (decide (j = i)) as [->|Hne].
      * rewrite list_lookup_insert_eq by lia.
        rewrite lookup_column_major_strides by lia.
        replace i with (S (i - 1)) at 2 by lia.
        rewrite (product_take_S s (i - 1) d Hd).
        rewrite mulw_wrap_l. reflexivity.
      * rewrite list_lookup_insert_ne by lia. apply Hinv. lia.
Qed.

(** ** Layout-directed reshape in closed form *)

Lemma subw_length_1 n :
  (1 <= n)%nat -> Z.of_nat n < modulus ->
  Z.to_nat (subw (Z.of_nat n) 1) = (n - 1)%nat.
Proof.
  intros H1 H2. unfold subw. rewrite wrap_small by lia. lia.
Qed.

Lemma reshape_row_major a s :
  s <> [] -> Z.of_nat (length s) < modulus ->
  reshape a s row_major =
  Some (mk_ndarray s (row_major_strides s)
          (Vec.resize value_init (Z.to_nat (wrap (product s))) (data a))).
Proof.
  intros Hne Hlen. unfold reshape.
  set (st0 := Vec.resize 0 (length s) (m_strides a)).
  assert (Hst0 : length st0 = length s) by apply length_resize.
  assert (Hn : (0 < length s)%nat) by (destruct s; [congruence|simpl; lia]).
  destruct (lookup_lt_is_Some_2 s 0 Hn) as [d Hd].
  unfold Vec.set_back. rewrite Hst0.
  destruct (length s) as [|k] eqn:Ek; [lia|].
  rewrite set_Some by lia. cbn [mbind option_bind].
  rewrite length_insert, Hst0, subw_length_1 by lia.
  replace (S k - 1)%nat with k by lia.
  rewrite for_down_row_major.
  - cbn [mbind option_bind]. unfold Vec.front.
    rewrite lookup_row_major_strides by lia.
    rewrite Hd. cbn [mbind option_bind].
    rewrite mulw_wrap_l.
    replace (product (drop 1 s) * d) with (product s); [reflexivity|].
    rewrite <- (drop_0 s) at 1. rewrite (product_drop s 0 d Hd). lia.
  - rewrite length_insert. lia.
  - lia.
  - intros j Hj. destruct (decide (j = k)) as [->|Hj'].
    + rewrite list_lookup_insert_eq by lia.
      rewrite lookup_row_major_strides by lia.
      rewrite drop_ge by lia. change (product []) with 1.
      rewrite wrap_1. reflexivity.
    + rewrite list_lookup_insert_ne by lia.
      rewrite !lookup_ge_None_2; auto.
      * rewrite length_row_major_strides. lia.
      * lia.
Qed.

Lemma reshape_column_major a s :
  s <> [] ->
  reshape a s column_major =
  Some (mk_ndarray s (column_major_strides s)
          (Vec.resize value_init (Z.to_nat (wrap (product s))) (data a))).
Proof.
  intros Hne. unfold reshape.
  set (st0 := Vec.resize 0 (length s) (m_strides a)).
  assert (Hst0 : length st0 = length s) by apply length_resize.
  assert (Hn : (1 <= length s)%nat) by (destruct s; [congruence|simpl; lia]).
  unfold Vec.set_front. rewrite set_Some by lia. cbn [mbind option_bind].
  rewrite length_insert, Hst0.
  rewrite for_up_column_major.
  - cbn [mbind option_bind]. unfold Vec.back.
    rewrite length_column_major_strides.
    destruct (length s) as [|k] eqn:Ek; [lia|].
    assert (Hk : (k < length s)%nat) by lia.
    destruct (lookup_lt_is_Some_2 s k Hk) as [d Hd].
    rewrite lookup_column_major_strides by lia. rewrite Hd.
    cbn [mbind option_bind].
    rewrite mulw_wrap_l.
    replace (product (take k s) * d) with (product s); [reflexivity|].
    rewrite <- (product_take_S s k d Hd).
    rewrite take_ge by lia. reflexivity.
  - rewrite length_insert. exact Hst0.
  - lia.
  - lia.
  - intros j Hj. assert (j = 0%nat) as -> by lia.
    rewrite list_lookup_insert_eq by lia.
    rewrite lookup_column_major_strides by lia.
    change (product (take 0 s)) with 1. rewrite wrap_1. reflexivity.
Qed.

(** ** Properties of the layout-directed reshape *)

(** C1 (as the code has it).  For a non-empty shape [s] of rank [n],
    [reshape(s, row_major)] succeeds, stores [s], and leaves strides with
    [strides[n-1] = 1] and, for every [i < n-1], [strides[i]] equal to
    [strides[i+1] * s[i+1]] reduced modulo [2^bits], which is the exact
    product whenever that is below [2^bits]; the buffer is resized to the
    product of the entries of [s] reduced modulo [2^bits], which is the
    exact product whenever that is representable; a shape with a 0 entry
    gives a buffer of size 0. *)
Theorem reshape_row_major_strides (a : ndarray) (s : shape_type) :
  s <> [] ->
  Z.of_nat (length s) < modulus ->
  exists a',
    reshape a s row_major = Some a' /\
    m_shape a' = s /\
    length (m_strides a') = length s /\
    m_strides a' !! (length s - 1)%nat = Some 1 /\
    (forall i x y d,
        m_strides a' !! i = Some x ->
        m_strides a' !! S i = Some y ->
        s !! S i = Some d ->
        x = mulw y d /\ (0 <= y * d < modulus -> x = y * d)) /\
    Z.of_nat (length (data a')) = wrap (product s) /\
    (0 <= product s < modulus -> Z.of_nat (length (data a')) = product s) /\
    (0 ∈ s -> length (data a') = 0%nat).
Proof.
  intros Hne Hlen. eexists. split; [apply reshape_row_major; assumption|].
  cbn [m_shape m_strides data].
  assert (Hn : (0 < length s)%nat) by (destruct s; [congruence|simpl; lia]).
  assert (Hsz : Z.of_nat (length (Vec.resize value_init
                  (Z.to_nat (wrap (product s))) (data a))) = wrap (product s)).
  { rewrite length_resize. pose proof (wrap_range (product s)). lia. }
  repeat split.
  - apply length_row_major_strides.
  - rewrite lookup_row_major_strides by lia.
    rewrite drop_ge by lia. change (product []) with 1.
    rewrite wrap_1. reflexivity.
  - assert (Hi : (S i < length s)%nat) by (eapply lookup_lt_Some; eauto).
    rewrite lookup_row_major_strides in H, H0 by lia.
    injection H as <-. injection H0 as <-.
    rewrite (product_drop s (S i) d H1), mulw_wrap_l. f_equal. lia.
  - intros Hyd.
    assert (Hi : (S i < length s)%nat) by (eapply lookup_lt_Some; eauto).
    rewrite lookup_row_major_strides in H, H0 by lia.
    injection H as <-. injection H0 as <-.
    rewrite <- (wrap_small _ Hyd).
    rewrite (product_drop s (S i) d H1).
    fold (mulw (wrap (product (drop (S (S i)) s))) d).
    rewrite mulw_wrap_l. f_equal. lia.
  - exact Hsz.
  - rewrite Hsz. apply wrap_small.
  - intros H0. apply product_zero in H0.
    rewrite length_resize, H0. reflexivity.
Qed.

(** C4 (as the code has it).  For a non-empty shape [s] of rank [n],
    [reshape(s, column_major)] succeeds, stores [s], and leaves strides with
    [strides[0] = 1] and, for [i] from 1 to [n-1], [strides[i]] equal to
    [strides[i-1] * s[i-1]] reduced modulo [2^bits], which is the exact
    product whenever that is below [2^bits]; the buffer is resized to
    [strides[n-1] * s[n-1]] reduced modulo [2^bits], which is the product of
    the entries of [s] reduced modulo [2^bits], and the exact product
    whenever that is representable. *)
Theorem reshape_column_major_strides (a : ndarray) (s : shape_type) :
  s <> [] ->
  exists a',
    reshape a s column_major = Some a' /\
    m_shape a' = s /\
    length (m_strides a') = length s /\
    m_strides a' !! 0%nat = Some 1 /\
    (forall i x y d,
        m_strides a' !! S i = Some x ->
        m_strides a' !! i = Some y ->
        s !! i = Some d ->
        x = mulw y d /\ (0 <= y * d < modulus -> x = y * d)) /\
    (exists y d,
        m_strides a' !! (length s - 1)%nat = Some y /\
        s !! (length s - 1)%nat = Some d /\
        Z.of_nat (length (data a')) = mulw y d /\
        mulw y d = wrap (product s)) /\
    (0 <= product s < modulus -> Z.of_nat (length (data a')) = product s).
Proof.
  intros Hne. eexists. split; [apply reshape_column_major; assumption|].
  cbn [m_shape m_strides data].
  assert (Hn : (0 < length s)%nat) by (destruct s; [congruence|simpl; lia]).
  assert (Hsz : Z.of_nat (length (Vec.resize value_init
                  (Z.to_nat (wrap (product s))) (data a))) = wrap (product s)).
  { rewrite length_resize. pose proof (wrap_range (product s)). lia. }
  assert (Hrec : forall i x y d,
             column_major_strides s !! S i = Some x ->
             column_major_strides s !! i = Some y ->
             s !! i = Some d -> x = mulw y d).
  { intros i x y d Hx Hy Hd.
    assert (Hi : (S i < length s)%nat).
    { rewrite <- length_column_major_strides. eapply lookup_lt_Some; eauto. }
    rewrite lookup_column_major_strides in Hx, Hy by lia.
    injection Hx as <-. injection Hy as <-.
    rewrite (product_take_S s i d Hd), mulw_wrap_l. reflexivity. }
  split; [reflexivity|]. split; [apply length_column_major_strides|].
  split; [|split; [|split]].
  - rewrite lookup_column_major_strides by lia.
    change (product (take 0 s)) with 1. rewrite wrap_1. reflexivity.
  - intros i x y d Hx Hy Hd. split; [eapply Hrec; eauto|].
    intros Hyd. rewrite (Hrec i x y d Hx Hy Hd). apply wrap_small, Hyd.
  - assert (Hk : (length s - 1 < length s)%nat) by lia.
    destruct (lookup_lt_is_Some_2 s _ Hk) as [d Hd].
    exists (wrap (product (take (length s - 1) s))), d.
    assert (Hp : mulw (wrap (product (take (length s - 1) s))) d
                 = wrap (product s)).
    { rewrite mulw_wrap_l, <- (product_take_S s _ d Hd).
      rewrite take_ge by lia. reflexivity. }
    split; [apply lookup_column_major_strides; lia|].
    split; [exact Hd|]. split; [|exact Hp].
    rewrite Hp. exact Hsz.
  - rewrite Hsz. apply wrap_small.
Qed.

(** C6 (behaviour of the code).  On the empty shape, [reshape(shape,
    row_major)] resizes the strides to length 0 and then assigns through
    [m_strides.back()], an access outside the vector; the loop counter that
    follows starts at [size_type(0) - 1], the largest [size_type] value.
    The operation has no defined result. *)
Theorem reshape_rank0_row_major_undefined (a : ndarray) :
  Vec.resize 0 (length (@nil Z)) (m_strides a) = [] /\
  Vec.set_back (@nil Z) 1 = None /\
  subw (Z.of_nat (length (@nil Z))) 1 = modulus - 1 /\
  Vec.front (@nil Z) = None /\
  reshape a [] row_major = None.
Proof.
  pose proof modulus_gt_1 as Hm.
  split; [reflexivity|]. split; [reflexivity|]. split.
  - unfold subw, wrap. cbn [length Z.of_nat]. symmetry.
    apply (Z.mod_unique _ _ (-1)); lia.
  - split; reflexivity.
Qed.

(** The same holds of the column-major branch, through [front()]. *)
Lemma reshape_rank0_column_major_undefined (a : ndarray) :
  reshape a [] column_major = None.
Proof. reflexivity. Qed.

(** C9.  For a non-empty shape [s], constructing with [(s, row_major)],
    reshaping to [(s, column_major)] and back to [(s, row_major)] all
    succeed, and the final stride vector is the one of the construction. *)
Theorem reshape_layout_round_trip (d0 : container_type) (s : shape_type) :
  s <> [] ->
  Z.of_nat (length s) < modulus ->
  exists a1 a2 a3,
    construct_layout d0 s row_major = Some a1 /\
    reshape a1 s column_major = Some a2 /\
    reshape a2 s row_major = Some a3 /\
    m_strides a3 = m_strides a1.
Proof.
  intros Hne Hlen. unfold construct_layout.
  do 3 eexists. split; [apply reshape_row_major; assumption|].
  split; [apply reshape_column_major; assumption|].
  split; [apply reshape_row_major; assumption|]. reflexivity.
Qed.

(** C7 (as the code has it).  After a layout-directed reshape or
    construction on a non-empty shape [s], the stored strides have the length
    of the stored shape.  The operations taking explicit strides store the
    two vectors they are given, of whatever lengths: the lengths agree
    exactly when those of the arguments do. *)
Theorem strides_length_after_geometry_change
  (a : ndarray) (d0 : container_type) (s : shape_type) (l : layout)
  (value : value_type) (shape : shape_type) (strides : strides_type) :
  s <> [] ->
  Z.of_nat (length s) < modulus ->
  (exists a', reshape a s l = Some a' /\
              length (m_strides a') = length (m_shape a')) /\
  (exists a', construct_layout d0 s l = Some a' /\
              length (m_strides a') = length (m_shape a')) /\
  (exists a', construct_layout_value d0 s value l = Some a' /\
              length (m_strides a') = length (m_shape a')) /\
  (forall a',
      a' = reshape_strides a shape strides \/
      a' = construct_strides d0 shape strides \/
      a' = construct_strides_value d0 shape strides value ->
      m_shape a' = shape /\ m_strides a' = strides /\
      (length (m_strides a') = length (m_shape a') <->
       length strides = length shape)).
Proof.
  intros Hne Hlen.
  assert (Hre : forall b, exists a', reshape b s l = Some a' /\
                  length (m_strides a') = length (m_shape a')).
  { intros b. destruct l.
    - eexists. split; [apply reshape_row_major; assumption|].
      apply length_row_major_strides.
    - eexists. split; [apply reshape_column_major; assumption|].
      apply length_column_major_strides. }
  split; [apply Hre|]. split; [apply Hre|]. split.
  - unfold construct_layout_value.
    destruct (Hre (mk_ndarray [] [] d0)) as (a' & -> & Ha').
    eexists. split; [reflexivity|]. exact Ha'.
  - intros a' [->|[->| ->]]; cbn [m_shape m_strides reshape_strides
      construct_strides construct_strides_value]; tauto.
Qed.

(** C8 (as the code has it).  Reshaping with explicit strides and the two
    explicit-strides constructors store the shape and the strides they are
    given and resize the buffer to [data_size] of the shape, the product of
    its entries reduced modulo [2^bits], which is the exact product whenever
    that is representable; the count is the same whatever strides are
    supplied. *)
Theorem explicit_strides_store_and_size
  (a : ndarray) (d0 : container_type) (shape : shape_type)
  (strides : strides_type) (value : value_type) :
  forall a',
    a' = reshape_strides a shape strides \/
    a' = construct_strides d0 shape strides \/
    a' = construct_strides_value d0 shape strides value ->
    m_shape a' = shape /\
    m_strides a' = strides /\
    Z.of_nat (length (data a')) = data_size shape /\
    data_size shape = wrap (product shape) /\
    (0 <= product shape < modulus ->
     Z.of_nat (length (data a')) = product shape) /\
    (forall strides' b',
        b' = reshape_strides a shape strides' \/
        b' = construct_strides d0 shape strides' \/
        b' = construct_strides_value d0 shape strides' value ->
        length (data b') = length (data a')).
Proof.
  intros a' Ha'.
  assert (Hsz : forall (x : value_type) (d : container_type),
    Z.of_nat (length (Vec.resize x (Z.to_nat (data_size shape)) d))
    = data_size shape).
  { intros x d. rewrite length_resize.
    pose proof (wrap_range (product shape)). unfold data_size. lia. }
  assert (Hlen : forall strides' b',
        b' = reshape_strides a shape strides' \/
        b' = construct_strides d0 shape strides' \/
        b' = construct_strides_value d0 shape strides' value ->
        Z.of_nat (length (data b')) = data_size shape).
  { intros strides' b' [->|[->| ->]]; apply Hsz. }
  split; [destruct Ha' as [->|[->| ->]]; reflexivity|].
  split; [destruct Ha' as [->|[->| ->]]; reflexivity|].
  split; [eapply Hlen; eauto|].
  split; [reflexivity|].
  split.
  - intros Hp. rewrite (Hlen strides a' Ha'). apply wrap_small, Hp.
  - intros strides' b' Hb'.
    pose proof (Hlen strides' b' Hb'). pose proof (Hlen strides a' Ha'). lia.
Qed.

(** ** Element access *)

Lemma dot_nil_r xs : dot xs [] = 0.
Proof. destruct xs; reflexivity. Qed.

(** Converting the indices to [size_type] does not change the offset. *)
Lemma data_offset_cast strides args :
  data_offset strides (map wrap args) = data_offset strides args.
Proof.
  unfold data_offset, wrap. pose proof modulus_gt_1 as Hm.
  revert strides. induction args as [|i args IH]; intros [|st strides];
    cbn [map dot]; try reflexivity.
  rewrite Z.add_mod by lia. rewrite IH.
  rewrite Z.mul_mod_idemp_l by lia.
  rewrite <- Z.add_mod by lia. reflexivity.
Qed.

Lemma subscript_Some (v : container_type) index :
  0 <= index < Z.of_nat (length v) ->
  subscript v index = Some (Z.to_nat index).
Proof. intros H. unfold subscript. rewrite decide_True; auto. Qed.

Lemma subscript_None (v : container_type) index :
  Z.of_nat (length v) <= index -> subscript v index = None.
Proof. intros H. unfold subscript. rewrite decide_False; auto. lia. Qed.

(** C2 (as the code has it).  Applied to as many indices as there are
    strides, the access operator, mutable or const, designates the buffer
    position given by the dot product of the indices with the strides
    reduced modulo [2^bits], which is the exact dot product whenever that is
    representable; when that position is inside the buffer the reference to
    it is returned, reading through the reference reads that position and
    writing through it changes that position.  Nothing is returned when the
    position is outside the buffer. *)
Theorem operator_call_position (a : ndarray) (args : list Z) :
  length args = length (m_strides a) ->
  let p := wrap (dot args (m_strides a)) in
  (p < Z.of_nat (size a) ->
   operator_call a args = Some (Ref (Z.to_nat p)) /\
   operator_call_const a args = Some (CRef (Z.to_nat p)) /\
   load a (Ref (Z.to_nat p)) = data a !! Z.to_nat p /\
   load_const a (CRef (Z.to_nat p)) = data a !! Z.to_nat p /\
   forall v, data (store a (Ref (Z.to_nat p)) v)
             = <[Z.to_nat p := v]> (data a)) /\
  (Z.of_nat (size a) <= p ->
   operator_call a args = None /\ operator_call_const a args = None) /\
  (0 <= dot args (m_strides a) < modulus -> p = dot args (m_strides a)).
Proof.
  intros _ p. unfold operator_call, operator_call_const.
  rewrite data_offset_cast. fold p. unfold data_offset. fold p.
  pose proof (wrap_range (dot args (m_strides a))) as Hp. fold p in Hp.
  split; [|split].
  - intros Hlt. unfold size in Hlt.
    rewrite subscript_Some by lia. cbn [mbind option_bind].
    repeat split; reflexivity.
  - intros Hge. unfold size in Hge.
    rewrite subscript_None by lia. split; reflexivity.
  - intros Hd. apply wrap_small, Hd.
Qed.

(** ** Broadcasting *)

Lemma merge_dim_None a b : merge_dim a b = None <-> a <> b /\ a <> 1 /\ b <> 1.
Proof.
  unfold merge_dim.
  destruct (Z.eqb_spec a b), (Z.eqb_spec a 1), (Z.eqb_spec b 1);
    split; try discriminate; try tauto; lia.
Qed.

Lemma merge_dim_Some a b c :
  merge_dim a b = Some c ->
  c = if a =? b then a else if a =? 1 then b else a.
Proof.
  unfold merge_dim.
  destruct (a =? b), (a =? 1), (b =? 1); congruence.
Qed.

Lemma length_pad_leading n s :
  (length s <= n)%nat -> length (pad_leading n s) = n.
Proof.
  intros H. unfold pad_leading. rewrite length_app, length_replicate. lia.
Qed.

Lemma merge_dims_Some xs ys r :
  merge_dims xs ys = Some r ->
  length r = length xs /\
  forall i a b, xs !! i = Some a -> ys !! i = Some b ->
                merge_dim a b = r !! i.
Proof.
  revert ys r. induction xs as [|x xs IH]; intros [|y ys] r H;
    cbn [merge_dims] in H; try discriminate.
  - injection H as <-. split; [reflexivity|]. intros i a b Ha. inversion Ha.
  - destruct (merge_dim x y) as [c|] eqn:Ec; [|discriminate].
    cbn [mbind option_bind] in H.
    destruct (merge_dims xs ys) as [r'|] eqn:Er; [|discriminate].
    cbn [mbind option_bind] in H. injection H as <-.
    destruct (IH ys r' Er) as [Hl Hr]. split; [cbn [length]; lia|].
    intros [|i] a b Ha Hb; rewrite lookup_cons in Ha, Hb |- *.
    + injection Ha as <-. injection Hb as <-. exact Ec.
    + eapply Hr; eauto.
Qed.

Lemma merge_dims_None xs ys :
  length xs = length ys ->
  (merge_dims xs ys = None <->
   exists i a b, xs !! i = Some a /\ ys !! i = Some b /\ merge_dim a b = None).
Proof.
  revert ys. induction xs as [|x xs IH]; intros [|y ys] Hlen;
    cbn [length] in Hlen; try lia.
  - cbn [merge_dims]. split; [discriminate|].
    intros (i & a & b & Ha & _). inversion Ha.
  - cbn [merge_dims]. specialize (IH ys ltac:(lia)).
    destruct (merge_dim x y) as [c|] eqn:Ec; cbn [mbind option_bind].
    + destruct (merge_dims xs ys) as [r|] eqn:Er; cbn [mbind option_bind].
      * split; [discriminate|].
        intros ([|i] & a & b & Ha & Hb & Hab); rewrite lookup_cons in Ha, Hb.
        -- congruence.
        -- destruct IH as [_ IH].
           assert (Hn : Some r = None) by (apply IH; exists i, a, b; auto).
           discriminate.
      * split; [|reflexivity]. intros _.
        destruct IH as [IH _]. destruct (IH eq_refl) as (i & a & b & H).
        exists (S i), a, b. exact H.
    + split; [|reflexivity]. intros _. exists 0%nat, x, y. auto.
Qed.

(** C10.  A call of the const member leaves the object as it was, shape,
    strides and buffer, whatever the callee computes and whether it reports
    success or failure; the boolean is the callee's and the argument passed
    by reference holds what the callee wrote into it, which with the callee
    of the source is, on success, the merged shape. *)
Theorem broadcast_shape_leaves_array_unchanged
  (callee : shape_type -> shape_type -> bool * shape_type)
  (a : ndarray) (shape : shape_type) :
  (self_after (broadcast_shape_via callee a shape) = a /\
   returned (broadcast_shape_via callee a shape)
   = fst (callee (m_shape a) shape) /\
   shape_after (broadcast_shape_via callee a shape)
   = snd (callee (m_shape a) shape)) /\
  (m_shape (self_after (ndarray_base_broadcast_shape a shape)) = m_shape a /\
   m_strides (self_after (ndarray_base_broadcast_shape a shape))
   = m_strides a /\
   data (self_after (ndarray_base_broadcast_shape a shape)) = data a) /\
  (returned (ndarray_base_broadcast_shape a shape) = true ->
   let n := Nat.max (length (m_shape a)) (length shape) in
   merge_dims (pad_leading n (m_shape a)) (pad_leading n shape)
   = Some (shape_after (ndarray_base_broadcast_shape a shape))).
Proof.
  split; [repeat split|]. split; [repeat split|].
  unfold ndarray_base_broadcast_shape, broadcast_shape_via, broadcast_shape.
  cbn [returned shape_after].
  destruct (merge_dims _ _); cbn [fst snd]; [reflexivity|discriminate].
Qed.

(** C3.  The member aligns the shape of the array with the candidate by
    padding the shorter of the two on its leading side with 1 up to the
    larger rank.  It returns false exactly when some aligned pair has two
    different sizes neither of which is 1.  When it returns true the result
    has the larger rank and its dimension for an aligned pair [(x, y)] is [x]
    if [x = y], [y] if [x = 1], and [x] otherwise (then [y = 1]).  Shapes
    [3,1,5] and [4,5] give true and [3,4,5]; shapes [2,3] and [2,4] give
    false. *)
Theorem broadcast_shape_alignment (a : ndarray) (shape : shape_type) :
  let n := Nat.max (length (m_shape a)) (length shape) in
  let xs := pad_leading n (m_shape a) in
  let ys := pad_leading n shape in
  let r := ndarray_base_broadcast_shape a shape in
  (length xs = n /\ length ys = n) /\
  (returned r = false <->
   exists i x y, xs !! i = Some x /\ ys !! i = Some y /\
                 x <> y /\ x <> 1 /\ y <> 1) /\
  (returned r = true ->
   length (shape_after r) = n /\
   forall i x y, xs !! i = Some x -> ys !! i = Some y ->
     shape_after r !! i
     = Some (if x =? y then x else if x =? 1 then y else x)) /\
  (m_shape a = [3; 1; 5] -> shape = [4; 5] ->
   returned r = true /\ shape_after r = [3; 4; 5]) /\
  (m_shape a = [2; 3] -> shape = [2; 4] -> returned r = false).
Proof.
  intros n xs ys r.
  assert (Hxs : length xs = n) by (apply length_pad_leading; lia).
  assert (Hys : length ys = n) by (apply length_pad_leading; lia).
  split; [split; assumption|].
  subst r. unfold ndarray_base_broadcast_shape, broadcast_shape_via,
    broadcast_shape. cbn [returned shape_after]. fold n. fold xs. fold ys.
  split; [|split; [|split]].
  - destruct (merge_dims xs ys) as [m|] eqn:Em; cbn [fst].
    + split; [discriminate|]. intros (i & x & y & Hx & Hy & Hxy).
      assert (Hn : merge_dims xs ys = None).
      { apply merge_dims_None; [congruence|].
        exists i, x, y. rewrite merge_dim_None. auto. }
      congruence.
    + split; [|reflexivity]. intros _.
      apply merge_dims_None in Em as (i & x & y & Hx & Hy & Hxy);
        [|congruence].
      exists i, x, y. rewrite <- merge_dim_None. auto.
  - destruct (merge_dims xs ys) as [m|] eqn:Em; cbn [fst snd];
      [|discriminate]. intros _.
    destruct (merge_dims_Some _ _ _ Em) as [Hl Hr].
    split; [congruence|]. intros i x y Hx Hy.
    rewrite <- (Hr i x y Hx Hy).
    destruct (merge_dim x y) as [c|] eqn:Ec.
    + f_equal. apply merge_dim_Some, Ec.
    + exfalso. assert (Hn : merge_dims xs ys = None).
      { apply merge_dims_None; [congruence|]. exists i, x, y. auto. }
      congruence.
  - subst xs ys n. intros -> ->. split; reflexivity.
  - subst xs ys n. intros -> ->. reflexivity.
Qed.

(** ** Dense addressing *)

Lemma product_pos s : Forall (fun d => 0 < d) s -> 0 < product s.
Proof.
  induction 1 as [|d s Hd Hs IH]; [reflexivity|].
  rewrite product_cons. lia.
Qed.

(** Without overflow of the element count the canonical strides are the
    exact suffix and prefix products. *)
Lemma row_major_strides_exact s :
  Forall (fun d => 0 < d) s -> product s < modulus ->
  row_major_strides s = row_major_exact s.
Proof.
  induction 1 as [|d s Hd Hs IH]; intros Hp; [reflexivity|].
  rewrite product_cons in Hp. pose proof (product_pos s Hs) as Hpos.
  assert (Htl : product s < modulus) by nia.
  cbn [row_major_strides row_major_exact].
  rewrite wrap_small by lia. rewrite IH by exact Htl. reflexivity.
Qed.

Lemma column_major_from_exact acc s :
  Forall (fun d => 0 < d) s -> 0 < acc -> acc * product s < modulus ->
  column_major_from acc s = column_major_exact acc s.
Proof.
  intros Hs. revert acc. induction Hs as [|d s Hd Hs IH]; intros acc Ha Hp;
    [reflexivity|].
  rewrite product_cons in Hp. pose proof (product_pos s Hs) as Hpos.
  cbn [column_major_from column_major_exact].
  assert (Hdp : 1 <= d * product s) by nia.
  assert (Hacc : acc * 1 <= acc * (d * product s))
    by (apply Z.mul_le_mono_nonneg_l; lia).
  rewrite wrap_small by lia. rewrite IH; [reflexivity|nia|].
  rewrite <- Z.mul_assoc. exact Hp.
Qed.

(** Row-major addressing is the mixed-radix numbering with the first index
    most significant. *)
Lemma row_major_offset_range s idx :
  valid_index s idx -> 0 <= dot idx (row_major_exact s) < product s.
Proof.
  induction 1 as [|i d idx s Hi Hv IH]; [change (product []) with 1; simpl; lia|].
  cbn [dot row_major_exact]. rewrite product_cons. nia.
Qed.

Lemma row_major_offset_inj s idx idx' :
  valid_index s idx -> valid_index s idx' ->
  dot idx (row_major_exact s) = dot idx' (row_major_exact s) -> idx = idx'.
Proof.
  intros Hv. revert idx'.
  induction Hv as [|i d idx s Hi Hv IH]; intros idx' Hv' Heq;
    inversion Hv' as [|i' d' idx1 s' Hi' Hv1]; subst; [reflexivity|].
  cbn [dot row_major_exact] in Heq.
  pose proof (row_major_offset_range s idx Hv) as Hr.
  pose proof (row_major_offset_range s idx1 Hv1) as Hr1.
  assert (Hii : i = i') by nia. subst i'.
  f_equal. apply IH; [exact Hv1|lia].
Qed.

Lemma row_major_offset_surj s p :
  Forall (fun d => 0 < d) s -> 0 <= p < product s ->
  exists idx, valid_index s idx /\ dot idx (row_major_exact s) = p.
Proof.
  intros Hs. revert p. induction Hs as [|d s Hd Hs IH]; intros p Hp.
  - change (product []) with 1 in Hp. exists []. split; [constructor|].
    simpl. lia.
  - rewrite product_cons in Hp. pose proof (product_pos s Hs) as Hpos.
    pose proof (Z.mod_pos_bound p (product s) Hpos) as Hm.
    destruct (IH (p mod product s) Hm) as (idx & Hv & Hidx).
    exists (p / product s :: idx). split.
    + constructor; [|exact Hv]. split.
      * apply Z.div_pos; lia.
      * apply Z.div_lt_upper_bound; lia.
    + cbn [dot row_major_exact]. rewrite Hidx.
      pose proof (Z.div_mod p (product s)). lia.
Qed.

(** Column-major addressing is the mixed-radix numbering with the first
    index least significant, scaled by the accumulated product. *)
Lemma column_major_offset_scale acc s idx :
  dot idx (column_major_exact acc s)
  = acc * dot idx (column_major_exact 1 s).
Proof.
  revert acc idx. induction s as [|d s IH]; intros acc idx.
  - cbn [column_major_exact]. rewrite !dot_nil_r. lia.
  - destruct idx as [|i idx]; cbn [dot column_major_exact]; [lia|].
    rewrite (IH (acc * d)), (IH (1 * d)). lia.
Qed.

Lemma column_major_offset_cons d s i idx :
  dot (i :: idx) (column_major_exact 1 (d :: s))
  = i + d * dot idx (column_major_exact 1 s).
Proof.
  cbn [dot column_major_exact].
  rewrite (column_major_offset_scale (1 * d)). lia.
Qed.

Lemma column_major_offset_range s idx :
  valid_index s idx -> 0 <= dot idx (column_major_exact 1 s) < product s.
Proof.
  induction 1 as [|i d idx s Hi Hv IH]; [change (product []) with 1; simpl; lia|].
  rewrite column_major_offset_cons, product_cons. nia.
Qed.

Lemma column_major_offset_inj s idx idx' :
  valid_index s idx -> valid_index s idx' ->
  dot idx (column_major_exact 1 s) = dot idx' (column_major_exact 1 s) ->
  idx = idx'.
Proof.
  intros Hv. revert idx'.
  induction Hv as [|i d idx s Hi Hv IH]; intros idx' Hv' Heq;
    inversion Hv' as [|i' d' idx1 s' Hi' Hv1]; subst; [reflexivity|].
  rewrite !column_major_offset_cons in Heq.
  pose proof (column_major_offset_range s idx Hv) as Hr.
  pose proof (column_major_offset_range s idx1 Hv1) as Hr1.
  assert (Hrr : dot idx (column_major_exact 1 s)
                = dot idx1 (column_major_exact 1 s)) by nia.
  f_equal; [nia|]. apply IH; assumption.
Qed.

Lemma column_major_offset_surj s p :
  Forall (fun d => 0 < d) s -> 0 <= p < product s ->
  exists idx, valid_index s idx /\ dot idx (column_major_exact 1 s) = p.
Proof.
  intros Hs. revert p. induction Hs as [|d s Hd Hs IH]; intros p Hp.
  - change (product []) with 1 in Hp. exists []. split; [constructor|].
    simpl. lia.
  - rewrite product_cons in Hp.
    assert (Hq : 0 <= p / d < product s).
    { split; [apply Z.div_pos; lia|apply Z.div_lt_upper_bound; lia]. }
    destruct (IH (p / d) Hq) as (idx & Hv & Hidx).
    exists (p mod d :: idx). split.
    + constructor; [|exact Hv]. apply Z.mod_pos_bound. exact Hd.
    + rewrite column_major_offset_cons, Hidx.
      pose proof (Z.div_mod p d). lia.
Qed.

(** [size_type] offsets inherit the properties of the exact dot product when
    the element count is representable. *)
Lemma data_offset_dense (st : strides_type) (s : shape_type) :
  product s < modulus ->
  (forall idx, valid_index s idx -> 0 <= dot idx st < product s) ->
  (forall idx idx', valid_index s idx -> valid_index s idx' ->
                    dot idx st = dot idx' st -> idx = idx') ->
  (forall p, 0 <= p < product s ->
             exists idx, valid_index s idx /\ dot idx st = p) ->
  (forall idx, valid_index s idx -> 0 <= data_offset st idx < product s) /\
  (forall idx idx', valid_index s idx -> valid_index s idx' ->
                    data_offset st idx = data_offset st idx' -> idx = idx') /\
  (forall p, 0 <= p < product s ->
             exists idx, valid_index s idx /\ data_offset st idx = p).
Proof.
  intros Hp Hrange Hinj Hsurj.
  assert (Hoff : forall idx, valid_index s idx ->
                             data_offset st idx = dot idx st).
  { intros idx Hv. apply wrap_small. specialize (Hrange idx Hv). lia. }
  split; [|split].
  - intros idx Hv. rewrite Hoff by exact Hv. apply Hrange, Hv.
  - intros idx idx' Hv Hv'. rewrite !Hoff by assumption. apply Hinj; assumption.
  - intros p Hpp. destruct (Hsurj p Hpp) as (idx & Hv & Hd).
    exists idx. split; [exact Hv|]. rewrite Hoff by exact Hv. exact Hd.
Qed.

(** C5 (as the code has it).  For a non-empty shape [s] with positive
    entries whose product is representable in [size_type], and either
    layout, the reshape succeeds with a buffer of [product s] elements, and
    over the computed strides the offset of every valid index tuple is a
    position of the buffer, which the access operator designates; distinct
    valid tuples have distinct offsets; and every position from 0 to
    [product s - 1] is the offset of a valid tuple. *)
Theorem canonical_offset_bijection (a : ndarray) (s : shape_type)
  (l : layout) :
  s <> [] ->
  Z.of_nat (length s) < modulus ->
  Forall (fun d => 0 < d) s ->
  product s < modulus ->
  exists a',
    reshape a s l = Some a' /\
    Z.of_nat (size a') = product s /\
    (forall idx, valid_index s idx ->
       0 <= data_offset (m_strides a') idx < product s /\
       operator_call a' idx
       = Some (Ref (Z.to_nat (data_offset (m_strides a') idx)))) /\
    (forall idx idx', valid_index s idx -> valid_index s idx' ->
       data_offset (m_strides a') idx = data_offset (m_strides a') idx' ->
       idx = idx') /\
    (forall p, 0 <= p < product s ->
       exists idx, valid_index s idx /\ data_offset (m_strides a') idx = p).
Proof.
  intros Hne Hlen Hpos Hp.
  pose proof (product_pos s Hpos) as Hprod.
  assert (Hdense : forall st,
    st = row_major_strides s \/ st = column_major_strides s ->
    (forall idx, valid_index s idx -> 0 <= data_offset st idx < product s) /\
    (forall idx idx', valid_index s idx -> valid_index s idx' ->
                      data_offset st idx = data_offset st idx' -> idx = idx') /\
    (forall p, 0 <= p < product s ->
               exists idx, valid_index s idx /\ data_offset st idx = p)).
  { intros st [->| ->].
    - rewrite row_major_strides_exact by assumption.
      apply data_offset_dense; [exact Hp|..].
      + apply row_major_offset_range.
      + apply row_major_offset_inj.
      + intros p. apply row_major_offset_surj, Hpos.
    - unfold column_major_strides.
      rewrite column_major_from_exact by (try assumption; lia).
      apply data_offset_dense; [exact Hp|..].
      + apply column_major_offset_range.
      + apply column_major_offset_inj.
      + intros p. apply column_major_offset_surj, Hpos. }
  assert (Hex : exists st,
    (st = row_major_strides s \/ st = column_major_strides s) /\
    reshape a s l = Some (mk_ndarray s st
      (Vec.resize value_init (Z.to_nat (wrap (product s))) (data a)))).
  { destruct l.
    - eexists. split; [left; reflexivity|]. apply reshape_row_major; assumption.
    - eexists. split; [right; reflexivity|].
      apply reshape_column_major; assumption. }
  destruct Hex as (st & Hst & Hre). destruct (Hdense st Hst) as (Hr & Hi & Hs).
  eexists. split; [exact Hre|]. unfold size. cbn [m_strides data].
  assert (Hsz : Z.of_nat (length (Vec.resize value_init
                  (Z.to_nat (wrap (product s))) (data a))) = product s).
  { rewrite length_resize, wrap_small by lia. lia. }
  split; [exact Hsz|]. split; [|split; assumption].
  intros idx Hv. split; [apply Hr, Hv|].
  unfold operator_call. cbn [m_strides data].
  rewrite data_offset_cast.
  rewrite subscript_Some; [reflexivity|]. rewrite Hsz. apply Hr, Hv.
Qed.

(** ** Further properties of the geometry operations *)

Lemma lookup_resize {A} (x : A) n (v : list A) i :
  Vec.resize x n v !! i
  = if decide (i < n)%nat
    then (if decide (i < length v)%nat then v !! i else Some x)
    else None.
Proof.
  unfold Vec.resize.
  destruct (decide (i < n)%nat) as [Hn|Hn].
  - destruct (decide (i < length v)%nat) as [Hv|Hv].
    + rewrite lookup_app_l by (rewrite length_take; lia).
      apply lookup_take_lt, Hn.
    + rewrite lookup_app_r by (rewrite length_take; lia).
      apply lookup_replicate_2. rewrite length_take. lia.
  - apply lookup_ge_None_2.
    rewrite length_app, length_take, length_replicate. lia.
Qed.

Lemma resize_same_length {A} (x : A) (v : list A) :
  Vec.resize x (length v) v = v.
Proof.
  unfold Vec.resize. rewrite take_ge by lia.
  rewrite Nat.sub_diag. apply app_nil_r.
Qed.

Lemma length_canonical_strides l s : length (canonical_strides l s) = length s.
Proof.
  destruct l; [apply length_row_major_strides|
               apply length_column_major_strides].
Qed.

(** Both branches of the layout-directed reshape in one closed form. *)
Lemma reshape_closed a s l :
  s <> [] -> Z.of_nat (length s) < modulus ->
  reshape a s l =
  Some (mk_ndarray s (canonical_strides l s)
          (Vec.resize value_init (Z.to_nat (wrap (product s))) (data a))).
Proof.
  intros Hne Hlen. destruct l.
  - apply reshape_row_major; assumption.
  - apply reshape_column_major; assumption.
Qed.

(** X1.  A layout-directed reshape never moves or overwrites the elements
    that stay in the buffer: every position below both the old and the new
    size holds the element it held, and every position the buffer grows by
    holds the value-initialised element. *)
Theorem reshape_keeps_buffer_prefix (a : ndarray) (s : shape_type)
  (l : layout) :
  s <> [] ->
  Z.of_nat (length s) < modulus ->
  exists a',
    reshape a s l = Some a' /\
    (forall i, (i < size a)%nat -> (i < size a')%nat ->
               data a' !! i = data a !! i) /\
    (forall i, (size a <= i)%nat -> (i < size a')%nat ->
               data a' !! i = Some value_init).
Proof.
  intros Hne Hlen. eexists. split; [apply reshape_closed; assumption|].
  unfold size. cbn [data]. rewrite length_resize.
  split; intros i Hi Hi'; rewrite lookup_resize.
  - rewrite !decide_True by lia. reflexivity.
  - rewrite decide_True by lia. rewrite decide_False by lia. reflexivity.
Qed.

(** X2.  Reshaping an array to the shape it already got from a reshape is
    the identity when the layout is the same, and changes nothing but the
    strides when the layout is the other one: the buffer is not
    rearranged. *)
Theorem reshape_same_shape_keeps_buffer (a : ndarray) (s : shape_type)
  (l : layout) :
  s <> [] ->
  Z.of_nat (length s) < modulus ->
  exists a1,
    reshape a s l = Some a1 /\
    reshape a1 s l = Some a1 /\
    forall l', exists a2,
      reshape a1 s l' = Some a2 /\
      m_shape a2 = m_shape a1 /\
      data a2 = data a1.
Proof.
  intros Hne Hlen. eexists. split; [apply reshape_closed; assumption|].
  assert (Hsame : forall l',
    reshape (mk_ndarray s (canonical_strides l s)
               (Vec.resize value_init (Z.to_nat (wrap (product s))) (data a)))
            s l'
    = Some (mk_ndarray s (canonical_strides l' s)
              (Vec.resize value_init (Z.to_nat (wrap (product s))) (data a)))).
  { intros l'. rewrite reshape_closed by assumption. cbn [data].
    rewrite <- (length_resize value_init (Z.to_nat (wrap (product s)))
                  (data a)) at 1.
    rewrite resize_same_length. reflexivity. }
  split; [apply Hsame|].
  intros l'. eexists. split; [apply Hsame|]. split; reflexivity.
Qed.

(** X3.  The shape, the strides and the size an array has after a
    layout-directed reshape depend on the new shape and the layout only:
    nothing of the previous shape, strides or buffer size survives, whatever
    the previous rank was. *)
Theorem reshape_forgets_previous_geometry (a b : ndarray) (s : shape_type)
  (l : layout) :
  s <> [] ->
  Z.of_nat (length s) < modulus ->
  exists a' b',
    reshape a s l = Some a' /\
    reshape b s l = Some b' /\
    m_shape a' = m_shape b' /\
    m_strides a' = m_strides b' /\
    size a' = size b'.
Proof.
  intros Hne Hlen. do 2 eexists.
  split; [apply reshape_closed; assumption|].
  split; [apply reshape_closed; assumption|].
  unfold size. cbn [m_shape m_strides data]. rewrite !length_resize.
  repeat split.
Qed.

(** X4.  The layout-directed reshape and the two layout-taking constructors
    have a defined result exactly for shapes of rank at least 1; on the
    empty shape both layouts run into an access outside an empty vector. *)
Theorem layout_operations_defined_iff_nonempty (a : ndarray)
  (d0 : container_type) (value : value_type) (s : shape_type) (l : layout) :
  Z.of_nat (length s) < modulus ->
  (reshape a s l = None <-> s = []) /\
  (construct_layout d0 s l = None <-> s = []) /\
  (construct_layout_value d0 s value l = None <-> s = []).
Proof.
  intros Hlen. destruct s as [|d tl].
  - destruct l; repeat split; reflexivity.
  - assert (Hne : d :: tl <> []) by discriminate.
    unfold construct_layout_value, construct_layout.
    rewrite !reshape_closed by assumption. cbn [mbind option_bind].
    repeat split; discriminate.
Qed.

Lemma product_reverse s : product (reverse s) = product s.
Proof.
  induction s as [|d s IH]; [reflexivity|].
  rewrite reverse_cons, product_app, IH, product_cons.
  change (product [d]) with (d * 1). rewrite Z.mul_1_r. apply Z.mul_comm.
Qed.

Lemma column_major_strides_reverse s :
  column_major_strides (reverse s) = reverse (row_major_strides s).
Proof.
  apply list_eq. intros i.
  destruct (decide (i < length s)%nat) as [Hi|Hi].
  - rewrite lookup_column_major_strides by (rewrite length_reverse; lia).
    rewrite reverse_lookup by (rewrite length_row_major_strides; lia).
    rewrite length_row_major_strides.
    rewrite lookup_row_major_strides by lia.
    rewrite take_reverse, product_reverse.
    replace (S (length s - S i)) with (length s - i)%nat by lia.
    reflexivity.
  - rewrite !lookup_ge_None_2; [reflexivity| |].
    + rewrite length_reverse, length_row_major_strides. lia.
    + rewrite length_column_major_strides, length_reverse. lia.
Qed.

(** X5.  The two layouts mirror each other: reshaping to the reversed shape
    in column-major order gives the reversed strides of the row-major
    reshape, and the same buffer. *)
Theorem layouts_mirror_each_other (a : ndarray) (s : shape_type) :
  s <> [] ->
  Z.of_nat (length s) < modulus ->
  exists a1 a2,
    reshape a s row_major = Some a1 /\
    reshape a (reverse s) column_major = Some a2 /\
    m_shape a2 = reverse (m_shape a1) /\
    m_strides a2 = reverse (m_strides a1) /\
    data a2 = data a1.
Proof.
  intros Hne Hlen. do 2 eexists.
  split; [apply reshape_row_major; assumption|]. split.
  - apply reshape_column_major. intros Hr.
    apply (f_equal length) in Hr. rewrite length_reverse in Hr.
    destruct s; [congruence|discriminate].
  - cbn [m_shape m_strides data]. split; [reflexivity|].
    split; [apply column_major_strides_reverse|].
    rewrite product_reverse. reflexivity.
Qed.

Lemma column_major_strides_last s d d' :
  column_major_strides (s ++ [d]) = column_major_strides (s ++ [d']).
Proof.
  apply list_eq. intros i.
  destruct (decide (i < S (length s))%nat) as [Hi|Hi].
  - rewrite !lookup_column_major_strides
      by (rewrite length_app; cbn [length]; lia).
    rewrite !take_app_le by lia. reflexivity.
  - rewrite !lookup_ge_None_2; [reflexivity| |];
      rewrite length_column_major_strides, length_app; cbn [length]; lia.
Qed.

(** X6.  Changing only the outermost dimension of a row-major array, or only
    the innermost dimension of a column-major one, leaves the strides as
    they are, and every element that stays in the buffer stays at its
    position: the array grows or shrinks along that axis in place. *)
Theorem resize_along_slowest_axis (a : ndarray) (d d' : Z)
  (tl : shape_type) :
  Z.of_nat (S (length tl)) < modulus ->
  (exists a1 a2,
      reshape a (d :: tl) row_major = Some a1 /\
      reshape a1 (d' :: tl) row_major = Some a2 /\
      m_strides a2 = m_strides a1 /\
      forall i, (i < size a1)%nat -> (i < size a2)%nat ->
                data a2 !! i = data a1 !! i) /\
  (exists a1 a2,
      reshape a (tl ++ [d]) column_major = Some a1 /\
      reshape a1 (tl ++ [d']) column_major = Some a2 /\
      m_strides a2 = m_strides a1 /\
      forall i, (i < size a1)%nat -> (i < size a2)%nat ->
                data a2 !! i = data a1 !! i).
Proof.
  intros Hlen.
  assert (Hkeep : forall (v : container_type) n i,
    (i < length v)%nat -> (i < n)%nat ->
    Vec.resize value_init n v !! i = v !! i).
  { intros v n i Hv Hn. rewrite lookup_resize, !decide_True by lia.
    reflexivity. }
  split; do 2 eexists.
  - split; [apply reshape_row_major; [discriminate|exact Hlen]|].
    split; [apply reshape_row_major; [discriminate|exact Hlen]|].
    unfold size. cbn [m_strides data row_major_strides].
    split; [reflexivity|]. intros i Hi Hi'.
    rewrite length_resize in Hi'. apply Hkeep; assumption.
  - split; [apply reshape_column_major; intros H; destruct tl; discriminate|].
    split; [apply reshape_column_major; intros H; destruct tl; discriminate|].
    unfold size. cbn [m_strides data].
    split; [apply column_major_strides_last|]. intros i Hi Hi'.
    rewrite length_resize in Hi'. apply Hkeep; assumption.
Qed.

(** X7.  A dimension of size 0 empties the buffer and zeroes the stride of
    every dimension outside it: the dimensions before it in row-major
    order, the dimensions after it in column-major order. *)
Theorem zero_dimension_zeroes_strides (a : ndarray) (s : shape_type)
  (l : layout) (k : nat) :
  s <> [] ->
  Z.of_nat (length s) < modulus ->
  s !! k = Some 0 ->
  exists a',
    reshape a s l = Some a' /\
    size a' = 0%nat /\
    forall i, (i < length s)%nat ->
      (l = row_major -> (i < k)%nat -> m_strides a' !! i = Some 0) /\
      (l = column_major -> (k < i)%nat -> m_strides a' !! i = Some 0).
Proof.
  intros Hne Hlen Hk. eexists. split; [apply reshape_closed; assumption|].
  unfold size. cbn [m_strides data]. split.
  - rewrite length_resize, (product_zero s); [reflexivity|].
    eapply list_elem_of_lookup_2, Hk.
  - intros i Hi. split; intros -> Hik; cbn [canonical_strides].
    + rewrite lookup_row_major_strides by exact Hi.
      rewrite product_zero; [reflexivity|].
      apply (list_elem_of_lookup_2 _ (k - S i)).
      rewrite lookup_drop. replace (S i + (k - S i))%nat with k by lia.
      exact Hk.
    + rewrite lookup_column_major_strides by exact Hi.
      rewrite product_zero; [reflexivity|].
      apply (list_elem_of_lookup_2 _ k).
      rewrite lookup_take_lt by exact Hik. exact Hk.
Qed.

(** X8.  The constructor taking a shape, a value and a layout builds the
    geometry of the constructor without a value and leaves every element
    of the buffer equal to the value, whatever the buffer held before. *)
Theorem construct_layout_value_fills (d0 : container_type)
  (s : shape_type) (value : value_type) (l : layout) :
  s <> [] ->
  Z.of_nat (length s) < modulus ->
  exists a0 a',
    construct_layout d0 s l = Some a0 /\
    construct_layout_value d0 s value l = Some a' /\
    m_shape a' = m_shape a0 /\
    m_strides a' = m_strides a0 /\
    size a' = size a0 /\
    forall i, (i < size a')%nat -> data a' !! i = Some value.
Proof.
  intros Hne Hlen. unfold construct_layout_value, construct_layout.
  rewrite reshape_closed by assumption. cbn [mbind option_bind].
  do 2 eexists. split; [reflexivity|]. split; [reflexivity|].
  unfold size, Vec.fill. cbn [m_shape m_strides data].
  rewrite length_replicate.
  repeat split. intros i Hi. apply lookup_replicate_2, Hi.
Qed.

(** X9.  The operations taking explicit strides do not overwrite what the
    buffer holds: a position below the old size keeps its element, and the
    positions the buffer grows by hold the value-initialised element, or the
    fill value for the constructor taking one.  Unlike the constructor
    taking a layout and a value, that constructor does not fill the
    elements already present. *)
Theorem explicit_strides_keep_buffer_elements (a : ndarray)
  (d0 : container_type) (shape : shape_type) (strides : strides_type)
  (value : value_type) (i : nat) :
  ((i < size (reshape_strides a shape strides))%nat ->
   data (reshape_strides a shape strides) !! i
   = if decide (i < size a)%nat then data a !! i else Some value_init) /\
  ((i < size (construct_strides d0 shape strides))%nat ->
   data (construct_strides d0 shape strides) !! i
   = if decide (i < length d0)%nat then d0 !! i else Some value_init) /\
  ((i < size (construct_strides_value d0 shape strides value))%nat ->
   data (construct_strides_value d0 shape strides value) !! i
   = if decide (i < length d0)%nat then d0 !! i else Some value).
Proof.
  unfold size, reshape_strides, construct_strides, construct_strides_value.
  cbn [data]. rewrite !length_resize.
  repeat split; intros Hi; rewrite lookup_resize, decide_True by exact Hi;
    reflexivity.
Qed.

Lemma product_take_drop s i : product s = product (take i s) * product (drop i s).
Proof. rewrite <- product_app, take_drop. reflexivity. Qed.

Lemma product_part_bounds s i :
  Forall (fun d => 0 < d) s ->
  (0 < product (take i s) <= product s) /\
  (0 < product (drop i s) <= product s).
Proof.
  intros Hs.
  pose proof (product_pos (take i s) (Forall_take _ i s Hs)) as Ht.
  pose proof (product_pos (drop i s) (Forall_drop _ i s Hs)) as Hd.
  pose proof (product_take_drop s i) as Hp. nia.
Qed.

(** X10.  For a non-empty shape with positive entries and a representable
    element count, every canonical stride is at least 1 and the strides are
    ordered by divisibility: in row-major order each stride is a multiple of
    the next one and not below it, in column-major order each stride is a
    multiple of the previous one and not below it. *)
Theorem canonical_strides_ordered (a : ndarray) (s : shape_type)
  (l : layout) :
  s <> [] ->
  Z.of_nat (length s) < modulus ->
  Forall (fun d => 0 < d) s ->
  product s < modulus ->
  exists a',
    reshape a s l = Some a' /\
    forall i x y,
      m_strides a' !! i = Some x ->
      m_strides a' !! S i = Some y ->
      (l = row_major -> 1 <= y <= x /\ (y | x)) /\
      (l = column_major -> 1 <= x <= y /\ (x | y)).
Proof.
  intros Hne Hlen Hpos Hp.
  eexists. split; [apply reshape_closed; assumption|].
  cbn [m_strides]. intros i x y Hx Hy.
  assert (Hi : (S i < length s)%nat).
  { rewrite <- (length_canonical_strides l). eapply lookup_lt_Some, Hy. }
  destruct (lookup_lt_is_Some_2 s (S i) Hi) as [d Hd].
  destruct (lookup_lt_is_Some_2 s i ltac:(lia)) as [e He].
  assert (Hd0 : 0 < d).
  { rewrite Forall_forall in Hpos.
    apply Hpos, list_elem_of_In, (list_elem_of_lookup_2 _ _ _ Hd). }
  assert (He0 : 0 < e).
  { rewrite Forall_forall in Hpos.
    apply Hpos, list_elem_of_In, (list_elem_of_lookup_2 _ _ _ He). }
  split; intros ->; cbn [canonical_strides] in Hx, Hy.
  - rewrite lookup_row_major_strides in Hx, Hy by lia.
    injection Hx as <-. injection Hy as <-.
    pose proof (product_part_bounds s (S i) Hpos) as [_ Hb].
    pose proof (product_part_bounds s (S (S i)) Hpos) as [_ Hb'].
    rewrite !wrap_small by lia.
    rewrite (product_drop s (S i) d Hd) in Hb |- *.
    split; [nia|]. exists d. reflexivity.
  - rewrite lookup_column_major_strides in Hx, Hy by lia.
    injection Hx as <-. injection Hy as <-.
    pose proof (product_part_bounds s i Hpos) as [Hb _].
    pose proof (product_part_bounds s (S i) Hpos) as [Hb' _].
    rewrite !wrap_small by lia.
    rewrite (product_take_S s i e He) in Hb' |- *.
    split; [nia|]. exists e. apply Z.mul_comm.
Qed.

Lemma row_major_exact_extent s :
  dot (map (fun d => d - 1) s) (row_major_exact s) = product s - 1.
Proof.
  induction s as [|d s IH]; [reflexivity|].
  cbn [map dot row_major_exact]. rewrite IH, product_cons. lia.
Qed.

Lemma column_major_exact_extent s :
  dot (map (fun d => d - 1) s) (column_major_exact 1 s) = product s - 1.
Proof.
  induction s as [|d s IH]; [reflexivity|].
  cbn [map]. rewrite column_major_offset_cons, IH, product_cons. lia.
Qed.

(** X11.  For a non-empty shape with positive entries and a representable
    element count, the strides of either layout span the buffer exactly:
    the largest index of every dimension taken together, multiplied by the
    strides and summed, is the last position of the buffer. *)
Theorem canonical_strides_span_buffer (a : ndarray) (s : shape_type)
  (l : layout) :
  s <> [] ->
  Z.of_nat (length s) < modulus ->
  Forall (fun d => 0 < d) s ->
  product s < modulus ->
  exists a',
    reshape a s l = Some a' /\
    dot (map (fun d => d - 1) s) (m_strides a') = Z.of_nat (size a') - 1.
Proof.
  intros Hne Hlen Hpos Hp. pose proof (product_pos s Hpos) as Hprod.
  eexists. split; [apply reshape_closed; assumption|].
  unfold size. cbn [m_strides data].
  rewrite length_resize, wrap_small by lia. rewrite Z2Nat.id by lia.
  destruct l; cbn [canonical_strides].
  - rewrite row_major_strides_exact by assumption.
    apply row_major_exact_extent.
  - unfold column_major_strides.
    rewrite column_major_from_exact by (try assumption; lia).
    apply column_major_exact_extent.
Qed.

Lemma subscript_inv (v : container_type) index pos :
  subscript v index = Some pos ->
  pos = Z.to_nat index /\ (pos < length v)%nat.
Proof.
  unfold subscript. destruct (decide _) as [H|H]; [|discriminate].
  intros [= <-]. split; [reflexivity|lia].
Qed.

(** X12.  Writing through the reference the access operator returns changes
    that one element and nothing else: the same indices then designate the
    same position, in the mutable and the const overload, and read the
    written value; every other position reads as before; the shape, the
    strides and the size are as before. *)
Theorem store_then_load (a : ndarray) (args : list Z) (r : reference)
  (v : value_type) :
  operator_call a args = Some r ->
  operator_call (store a r v) args = Some r /\
  load (store a r v) r = Some v /\
  (exists c, operator_call_const (store a r v) args = Some c /\
             load_const (store a r v) c = Some v) /\
  (forall r', r' <> r -> load (store a r v) r' = load a r') /\
  m_shape (store a r v) = m_shape a /\
  m_strides (store a r v) = m_strides a /\
  size (store a r v) = size a.
Proof.
  unfold operator_call, operator_call_const. intros Hcall.
  destruct (subscript (data a) _) as [pos|] eqn:Hsub; [|discriminate].
  cbn [mbind option_bind] in Hcall. injection Hcall as <-.
  destruct (subscript_inv _ _ _ Hsub) as [Hpos Hlt].
  assert (Hsub' : subscript (<[pos := v]> (data a))
                    (data_offset (m_strides a) (map wrap args)) = Some pos).
  { unfold subscript in Hsub |- *. rewrite length_insert. exact Hsub. }
  unfold size. cbn [store m_shape m_strides data load load_const].
  rewrite Hsub'. cbn [mbind option_bind].
  split; [reflexivity|].
  split; [apply list_lookup_insert_eq, Hlt|].
  split; [exists (CRef pos); split;
          [reflexivity|apply list_lookup_insert_eq, Hlt]|].
  split; [|split; [reflexivity|split; [reflexivity|apply length_insert]]].
  intros [pos'] Hne. apply list_lookup_insert_ne. congruence.
Qed.

End Geometry.

(** ** Instances on a 64-bit [size_type] *)

Module Instances.

(** The example arrays with integer elements. *)
Local Abbreviation array_3_4 := (array_3_4 0).
Local Abbreviation array_3_1_5 := (array_3_1_5 0).
Local Abbreviation array_2_3 := (array_2_3 0).

(** The operations evaluated on small inputs. *)
Example reshape_2_3_4_row_major :
  reshape 64 0 array_3_4 [2; 3; 4] row_major
  = Some (mk_ndarray [2; 3; 4] [12; 4; 1] (replicate 24 0)).
Proof. vm_compute. reflexivity. Qed.

Example reshape_2_3_4_column_major :
  reshape 64 0 array_3_4 [2; 3; 4] column_major
  = Some (mk_ndarray [2; 3; 4] [1; 2; 6] (replicate 24 0)).
Proof. vm_compute. reflexivity. Qed.

Example reshape_zero_dimension :
  reshape 64 0 array_3_4 [2; 0; 4] row_major
  = Some (mk_ndarray [2; 0; 4] [0; 4; 1] []).
Proof. vm_compute. reflexivity. Qed.

Example reshape_to_another_rank :
  reshape 64 0 array_2_3 [4] row_major
  = Some (mk_ndarray [4] [1] (replicate 4 0)).
Proof. vm_compute. reflexivity. Qed.

Example reshape_explicit_strides_rank0 :
  reshape_strides 64 0 array_2_3 [] [] = mk_ndarray [] [] [0].
Proof. vm_compute. reflexivity. Qed.

Example operator_call_3_4 :
  operator_call 64 array_3_4 [2; 3] = Some (Ref 11) /\
  operator_call 64 array_3_4 [2; 4] = None.
Proof. split; vm_compute; reflexivity. Qed.

Lemma reshape_row_major_strides_witness :
  [2; 3; 4] <> [] /\ Z.of_nat (length [2; 3; 4]) < modulus 64 /\
  exists a',
    reshape 64 0 array_3_4 [2; 3; 4] row_major = Some a' /\
    m_strides a' = [12; 4; 1] /\ length (data a') = 24%nat.
Proof.
  assert (H1 : [2; 3; 4] <> []) by discriminate.
  assert (H2 : Z.of_nat (length [2; 3; 4]) < modulus 64)
    by (vm_compute; reflexivity).
  split; [exact H1|]. split; [exact H2|].
  destruct (reshape_row_major_strides 64 0 array_3_4 [2; 3; 4] H1 H2)
    as (a' & Hre & _).
  exists a'. split; [exact Hre|].
  vm_compute in Hre. injection Hre as <-. split; reflexivity.
Defined.

Lemma reshape_column_major_strides_witness :
  [2; 3; 4] <> [] /\
  exists a',
    reshape 64 0 array_3_4 [2; 3; 4] column_major = Some a' /\
    m_strides a' = [1; 2; 6] /\ length (data a') = 24%nat.
Proof.
  assert (H1 : [2; 3; 4] <> []) by discriminate.
  split; [exact H1|].
  destruct (reshape_column_major_strides 64 0 array_3_4 [2; 3; 4] H1)
    as (a' & Hre & _).
  exists a'. split; [exact Hre|].
  vm_compute in Hre. injection Hre as <-. split; reflexivity.
Defined.

Lemma reshape_layout_round_trip_witness :
  [2; 3; 4] <> [] /\ Z.of_nat (length [2; 3; 4]) < modulus 64 /\
  exists a1 a2 a3,
    construct_layout 64 0 [] [2; 3; 4] row_major = Some a1 /\
    reshape 64 0 a1 [2; 3; 4] column_major = Some a2 /\
    reshape 64 0 a2 [2; 3; 4] row_major = Some a3 /\
    m_strides a3 = m_strides a1.
Proof.
  assert (H1 : [2; 3; 4] <> []) by discriminate.
  assert (H2 : Z.of_nat (length [2; 3; 4]) < modulus 64)
    by (vm_compute; reflexivity).
  split; [exact H1|]. split; [exact H2|].
  exact (reshape_layout_round_trip 64 0 [] [2; 3; 4] H1 H2).
Defined.

Lemma strides_length_after_geometry_change_witness :
  [2; 3] <> [] /\ Z.of_nat (length [2; 3]) < modulus 64 /\
  (exists a', reshape 64 0 array_3_4 [2; 3] column_major = Some a' /\
              length (m_strides a') = length (m_shape a')) /\
  m_strides (reshape_strides 64 0 array_3_4 [4; 3] [1; 4]) = [1; 4].
Proof.
  assert (H1 : [2; 3] <> []) by discriminate.
  assert (H2 : Z.of_nat (length [2; 3]) < modulus 64)
    by (vm_compute; reflexivity).
  split; [exact H1|]. split; [exact H2|].
  destruct (strides_length_after_geometry_change 64 0 array_3_4 []
              [2; 3] column_major 0 [4; 3] [1; 4] H1 H2)
    as (Hre & _ & _ & Hex).
  split; [exact Hre|]. apply Hex. left. reflexivity.
Defined.

(** Explicit strides of another length than the shape are stored as they
    are. *)
Lemma explicit_strides_length_mismatch :
  length (m_strides (reshape_strides 64 0 array_3_4 [2; 3] [1]))
  <> length (m_shape (reshape_strides 64 0 array_3_4 [2; 3] [1])).
Proof. vm_compute. discriminate. Qed.

Lemma explicit_strides_store_and_size_witness :
  0 <= product [4; 3] < modulus 64 /\
  Z.of_nat (length (data (reshape_strides 64 0 array_3_4 [4; 3] [1; 100])))
  = product [4; 3].
Proof.
  assert (H1 : 0 <= product [4; 3] < modulus 64) by (vm_compute; split; congruence).
  split; [exact H1|].
  destruct (explicit_strides_store_and_size 64 0 array_3_4 [] [4; 3]
              [1; 100] 0 _ (or_introl eq_refl)) as (_ & _ & _ & _ & H & _).
  exact (H H1).
Defined.

Lemma operator_call_position_witness :
  length [2; 1] = length (m_strides array_3_4) /\
  operator_call 64 array_3_4 [2; 1] = Some (Ref 9) /\
  operator_call_const 64 array_3_4 [2; 1] = Some (CRef 9).
Proof.
  assert (H1 : length [2; 1] = length (m_strides array_3_4)) by reflexivity.
  split; [exact H1|].
  destruct (operator_call_position 64 array_3_4 [2; 1] H1) as (H & _ & _).
  destruct H as (Hm & Hc & _); [vm_compute; reflexivity|].
  split; [exact Hm|exact Hc].
Defined.

Lemma broadcast_shape_leaves_array_unchanged_witness :
  self_after (ndarray_base_broadcast_shape array_3_1_5 [4; 5]) = array_3_1_5 /\
  shape_after (ndarray_base_broadcast_shape array_3_1_5 [4; 5]) = [3; 4; 5].
Proof.
  destruct (broadcast_shape_leaves_array_unchanged broadcast_shape
              array_3_1_5 [4; 5]) as ((Hself & _ & _) & _ & Hm).
  split; [exact Hself|].
  specialize (Hm eq_refl). cbv zeta in Hm.
  apply (inj Some). rewrite <- Hm. reflexivity.
Defined.

Lemma broadcast_shape_alignment_witness :
  (returned (ndarray_base_broadcast_shape array_3_1_5 [4; 5]) = true /\
   shape_after (ndarray_base_broadcast_shape array_3_1_5 [4; 5]) = [3; 4; 5])
  /\
  returned (ndarray_base_broadcast_shape array_2_3 [2; 4]) = false.
Proof.
  split.
  - destruct (broadcast_shape_alignment array_3_1_5 [4; 5])
      as (_ & _ & _ & H & _).
    apply H; reflexivity.
  - destruct (broadcast_shape_alignment array_2_3 [2; 4])
      as (_ & _ & _ & _ & H).
    apply H; reflexivity.
Defined.

Lemma canonical_offset_bijection_witness :
  [2; 3; 4] <> [] /\ Z.of_nat (length [2; 3; 4]) < modulus 64 /\
  Forall (fun d => 0 < d) [2; 3; 4] /\ product [2; 3; 4] < modulus 64 /\
  exists a',
    reshape 64 0 array_3_4 [2; 3; 4] column_major = Some a' /\
    Z.of_nat (size a') = 24 /\
    exists idx, valid_index [2; 3; 4] idx /\
                data_offset 64 (m_strides a') idx = 17.
Proof.
  assert (H1 : [2; 3; 4] <> []) by discriminate.
  assert (H2 : Z.of_nat (length [2; 3; 4]) < modulus 64)
    by (vm_compute; reflexivity).
  assert (H3 : Forall (fun d => 0 < d) [2; 3; 4])
    by (repeat constructor).
  assert (H4 : product [2; 3; 4] < modulus 64) by (vm_compute; reflexivity).
  split; [exact H1|]. split; [exact H2|]. split; [exact H3|].
  split; [exact H4|].
  destruct (canonical_offset_bijection 64 0 array_3_4 [2; 3; 4] column_major
              H1 H2 H3 H4) as (a' & Hre & Hsz & _ & _ & Hsurj).
  exists a'. split; [exact Hre|]. split; [exact Hsz|].
  apply Hsurj. vm_compute. split; congruence.
Defined.

(** With a shape whose element count is not representable, two valid index
    tuples share an offset and the buffer is empty: shape [2^33, 2^32]. *)
Lemma offset_collision_on_overflow :
  Forall (fun d => 0 < d < modulus 64) [2 ^ 33; 2 ^ 32] /\
  exists a',
    reshape 64 0 array_3_4 [2 ^ 33; 2 ^ 32] row_major = Some a' /\
    size a' = 0%nat /\
    valid_index [2 ^ 33; 2 ^ 32] [2 ^ 32; 0] /\
    valid_index [2 ^ 33; 2 ^ 32] [0; 0] /\
    [2 ^ 32; 0] <> [0; 0] /\
    data_offset 64 (m_strides a') [2 ^ 32; 0]
    = data_offset 64 (m_strides a') [0; 0].
Proof.
  split.
  - repeat constructor; vm_compute; reflexivity.
  - eexists. split; [vm_compute; reflexivity|].
    split; [reflexivity|].
    split; [repeat constructor; vm_compute; congruence|].
    split; [repeat constructor; vm_compute; congruence|].
    split; [vm_compute; discriminate|].
    vm_compute. reflexivity.
Qed.

End Instances.

(** ** Instances of the further properties on a 64-bit [size_type] *)

Module MoreInstances.

Local Abbreviation array_3_4 := (array_3_4 0).
Local Abbreviation array_2_3 := (array_2_3 0).

Local Ltac fits := vm_compute; reflexivity.

Lemma reshape_keeps_buffer_prefix_witness :
  [2; 3; 4] <> [] /\ Z.of_nat (length [2; 3; 4]) < modulus 64 /\
  exists a',
    reshape 64 7 (store array_3_4 (Ref 5) 9) [2; 3; 4] row_major = Some a' /\
    data a' !! 5%nat = Some 9 /\ data a' !! 20%nat = Some 7.
Proof.
  assert (H1 : [2; 3; 4] <> []) by discriminate.
  assert (H2 : Z.of_nat (length [2; 3; 4]) < modulus 64) by fits.
  split; [exact H1|]. split; [exact H2|].
  destruct (reshape_keeps_buffer_prefix 64 7 (store array_3_4 (Ref 5) 9)
              [2; 3; 4] row_major H1 H2) as (a' & Hre & Hold & Hnew).
  exists a'. split; [exact Hre|].
  assert (Hsz : size a' = 24%nat).
  { vm_compute in Hre. injection Hre as <-. reflexivity. }
  split.
  - rewrite Hold; [reflexivity|vm_compute; lia|rewrite Hsz; lia].
  - apply Hnew; [vm_compute; lia|rewrite Hsz; lia].
Defined.

Lemma reshape_same_shape_keeps_buffer_witness :
  [2; 6] <> [] /\ Z.of_nat (length [2; 6]) < modulus 64 /\
  exists a1,
    reshape 64 0 array_3_4 [2; 6] column_major = Some a1 /\
    reshape 64 0 a1 [2; 6] column_major = Some a1.
Proof.
  assert (H1 : [2; 6] <> []) by discriminate.
  assert (H2 : Z.of_nat (length [2; 6]) < modulus 64) by fits.
  split; [exact H1|]. split; [exact H2|].
  destruct (reshape_same_shape_keeps_buffer 64 0 array_3_4 [2; 6]
              column_major H1 H2) as (a1 & Hre & Hid & _).
  exists a1. split; [exact Hre|exact Hid].
Defined.

Lemma reshape_forgets_previous_geometry_witness :
  [5; 2] <> [] /\ Z.of_nat (length [5; 2]) < modulus 64 /\
  exists a' b',
    reshape 64 0 array_3_4 [5; 2] row_major = Some a' /\
    reshape 64 0 (mk_ndarray [7] [9; 9; 9] []) [5; 2] row_major = Some b' /\
    m_strides a' = m_strides b'.
Proof.
  assert (H1 : [5; 2] <> []) by discriminate.
  assert (H2 : Z.of_nat (length [5; 2]) < modulus 64) by fits.
  split; [exact H1|]. split; [exact H2|].
  destruct (reshape_forgets_previous_geometry 64 0 array_3_4
              (mk_ndarray [7] [9; 9; 9] []) [5; 2] row_major H1 H2)
    as (a' & b' & Ha & Hb & _ & Hst & _).
  exists a', b'. auto.
Defined.

Lemma layout_operations_defined_iff_nonempty_witness :
  Z.of_nat (length (@nil Z)) < modulus 64 /\
  construct_layout 64 0 [] [] column_major = None.
Proof.
  assert (H1 : Z.of_nat (length (@nil Z)) < modulus 64) by fits.
  split; [exact H1|].
  apply (layout_operations_defined_iff_nonempty 64 0 array_3_4 [] 0 []
           column_major H1).
  reflexivity.
Defined.

Lemma layouts_mirror_each_other_witness :
  [2; 3; 4] <> [] /\ Z.of_nat (length [2; 3; 4]) < modulus 64 /\
  exists a1 a2,
    reshape 64 0 array_3_4 [2; 3; 4] row_major = Some a1 /\
    reshape 64 0 array_3_4 (reverse [2; 3; 4]) column_major = Some a2 /\
    m_strides a2 = reverse (m_strides a1).
Proof.
  assert (H1 : [2; 3; 4] <> []) by discriminate.
  assert (H2 : Z.of_nat (length [2; 3; 4]) < modulus 64) by fits.
  split; [exact H1|]. split; [exact H2|].
  destruct (layouts_mirror_each_other 64 0 array_3_4 [2; 3; 4] H1 H2)
    as (a1 & a2 & Ha & Hb & _ & Hst & _).
  exists a1, a2. auto.
Defined.

Lemma resize_along_slowest_axis_witness :
  Z.of_nat (S (length [4])) < modulus 64 /\
  exists a1 a2,
    reshape 64 0 array_3_4 [3; 4] row_major = Some a1 /\
    reshape 64 0 a1 [5; 4] row_major = Some a2 /\
    m_strides a2 = m_strides a1.
Proof.
  assert (H1 : Z.of_nat (S (length [4])) < modulus 64) by fits.
  split; [exact H1|].
  destruct (resize_along_slowest_axis 64 0 array_3_4 3 5 [4] H1)
    as ((a1 & a2 & Ha & Hb & Hst & _) & _).
  exists a1, a2. auto.
Defined.

Lemma zero_dimension_zeroes_strides_witness :
  [2; 3; 0; 4] <> [] /\ Z.of_nat (length [2; 3; 0; 4]) < modulus 64 /\
  [2; 3; 0; 4] !! 2%nat = Some 0 /\
  exists a',
    reshape 64 0 array_3_4 [2; 3; 0; 4] row_major = Some a' /\
    size a' = 0%nat /\ m_strides a' !! 1%nat = Some 0.
Proof.
  assert (H1 : [2; 3; 0; 4] <> []) by discriminate.
  assert (H2 : Z.of_nat (length [2; 3; 0; 4]) < modulus 64) by fits.
  assert (H3 : [2; 3; 0; 4] !! 2%nat = Some 0) by reflexivity.
  split; [exact H1|]. split; [exact H2|]. split; [exact H3|].
  destruct (zero_dimension_zeroes_strides 64 0 array_3_4 [2; 3; 0; 4]
              row_major 2 H1 H2 H3) as (a' & Hre & Hsz & Hst).
  exists a'. split; [exact Hre|]. split; [exact Hsz|].
  destruct (Hst 1%nat) as [Hrow _]; [vm_compute; lia|].
  apply Hrow; [reflexivity|lia].
Defined.

Lemma construct_layout_value_fills_witness :
  [2; 2] <> [] /\ Z.of_nat (length [2; 2]) < modulus 64 /\
  exists a',
    construct_layout_value 64 0 [1; 2; 3] [2; 2] 8 row_major = Some a' /\
    data a' !! 1%nat = Some 8.
Proof.
  assert (H1 : [2; 2] <> []) by discriminate.
  assert (H2 : Z.of_nat (length [2; 2]) < modulus 64) by fits.
  split; [exact H1|]. split; [exact H2|].
  destruct (construct_layout_value_fills 64 0 [1; 2; 3] [2; 2] 8 row_major
              H1 H2) as (a0 & a' & _ & Hre & _ & _ & _ & Hfill).
  exists a'. split; [exact Hre|]. apply Hfill.
  vm_compute in Hre. injection Hre as <-. vm_compute. lia.
Defined.

Lemma explicit_strides_keep_buffer_elements_witness :
  data (construct_strides_value 64 [1; 2; 3] [2; 3] [3; 1] 8) !! 1%nat
  = Some 2 /\
  data (construct_strides_value 64 [1; 2; 3] [2; 3] [3; 1] 8) !! 4%nat
  = Some 8.
Proof.
  split.
  - destruct (explicit_strides_keep_buffer_elements 64 0 array_3_4
                [1; 2; 3] [2; 3] [3; 1] 8 1) as (_ & _ & H).
    rewrite H; [reflexivity|vm_compute; lia].
  - destruct (explicit_strides_keep_buffer_elements 64 0 array_3_4
                [1; 2; 3] [2; 3] [3; 1] 8 4) as (_ & _ & H).
    rewrite H; [reflexivity|vm_compute; lia].
Defined.

Lemma canonical_strides_ordered_witness :
  [2; 3; 4] <> [] /\ Z.of_nat (length [2; 3; 4]) < modulus 64 /\
  Forall (fun d => 0 < d) [2; 3; 4] /\ product [2; 3; 4] < modulus 64 /\
  exists a',
    reshape 64 0 array_3_4 [2; 3; 4] row_major = Some a' /\
    (4 | 12).
Proof.
  assert (H1 : [2; 3; 4] <> []) by discriminate.
  assert (H2 : Z.of_nat (length [2; 3; 4]) < modulus 64) by fits.
  assert (H3 : Forall (fun d => 0 < d) [2; 3; 4]) by (repeat constructor).
  assert (H4 : product [2; 3; 4] < modulus 64) by fits.
  split; [exact H1|]. split; [exact H2|]. split; [exact H3|].
  split; [exact H4|].
  destruct (canonical_strides_ordered 64 0 array_3_4 [2; 3; 4] row_major
              H1 H2 H3 H4) as (a' & Hre & Hord).
  exists a'. split; [exact Hre|].
  destruct (Hord 0%nat 12 4) as [Hrow _].
  - vm_compute in Hre. injection Hre as <-. reflexivity.
  - vm_compute in Hre. injection Hre as <-. reflexivity.
  - apply Hrow. reflexivity.
Defined.

Lemma canonical_strides_span_buffer_witness :
  [2; 3; 4] <> [] /\ Z.of_nat (length [2; 3; 4]) < modulus 64 /\
  Forall (fun d => 0 < d) [2; 3; 4] /\ product [2; 3; 4] < modulus 64 /\
  exists a',
    reshape 64 0 array_3_4 [2; 3; 4] column_major = Some a' /\
    dot [1; 2; 3] (m_strides a') = Z.of_nat (size a') - 1.
Proof.
  assert (H1 : [2; 3; 4] <> []) by discriminate.
  assert (H2 : Z.of_nat (length [2; 3; 4]) < modulus 64) by fits.
  assert (H3 : Forall (fun d => 0 < d) [2; 3; 4]) by (repeat constructor).
  assert (H4 : product [2; 3; 4] < modulus 64) by fits.
  split; [exact H1|]. split; [exact H2|]. split; [exact H3|].
  split; [exact H4|].
  exact (canonical_strides_span_buffer 64 0 array_3_4 [2; 3; 4] column_major
           H1 H2 H3 H4).
Defined.

Lemma store_then_load_witness :
  operator_call 64 array_3_4 [2; 1] = Some (Ref 9) /\
  load (store array_3_4 (Ref 9) 5) (Ref 9) = Some 5 /\
  operator_call 64 (store array_3_4 (Ref 9) 5) [2; 1] = Some (Ref 9).
Proof.
  assert (H1 : operator_call 64 array_3_4 [2; 1] = Some (Ref 9)) by fits.
  split; [exact H1|].
  destruct (store_then_load 64 array_3_4 [2; 1] (Ref 9) 5 H1)
    as (Hcall & Hload & _).
  split; [exact Hload|exact Hcall].
Defined.

End MoreInstances.

(** ** Where [size_type] arithmetic departs from exact arithmetic *)

Module Overflow.

Local Abbreviation array_3_4 := (array_3_4 0).

(** Row-major, shape [3, 2^32, 2^32]: the stride of the first dimension is
    0 and not [2^32 * 2^32], and the buffer is empty although no dimension
    is 0. *)
Lemma row_major_product_overflow :
  Forall (fun d => 0 < d < modulus 64) [3; 2 ^ 32; 2 ^ 32] /\
  exists a',
    reshape 64 0 array_3_4 [3; 2 ^ 32; 2 ^ 32] row_major = Some a' /\
    m_strides a' = [0; 2 ^ 32; 1] /\
    0 <> 2 ^ 32 * 2 ^ 32 /\
    size a' = 0%nat /\
    Z.of_nat (size a') <> product [3; 2 ^ 32; 2 ^ 32].
Proof.
  split.
  - repeat constructor; vm_compute; reflexivity.
  - eexists. split; [vm_compute; reflexivity|].
    split; [reflexivity|]. split; [vm_compute; discriminate|].
    split; [reflexivity|]. vm_compute. discriminate.
Qed.

(** Column-major, the same shape: the strides are [1, 3, 3 * 2^32] and the
    buffer is resized to [3 * 2^32 * 2^32] reduced modulo [2^64], that is 0,
    not to the product of the entries. *)
Lemma column_major_product_overflow :
  Forall (fun d => 0 < d < modulus 64) [3; 2 ^ 32; 2 ^ 32] /\
  exists a',
    reshape 64 0 array_3_4 [3; 2 ^ 32; 2 ^ 32] column_major = Some a' /\
    m_strides a' = [1; 3; 3 * 2 ^ 32] /\
    size a' = 0%nat /\
    Z.of_nat (size a') <> 3 * 2 ^ 32 * 2 ^ 32 /\
    Z.of_nat (size a') <> product [3; 2 ^ 32; 2 ^ 32].
Proof.
  split.
  - repeat constructor; vm_compute; reflexivity.
  - eexists. split; [vm_compute; reflexivity|].
    split; [reflexivity|]. split; [reflexivity|].
    split; vm_compute; discriminate.
Qed.

(** Shape [2^63 + 1, 2], row-major, strides [2, 1] and a buffer of 2
    elements: the valid indices [(2^63, 0)] have dot product [2^64] and the
    operator returns the reference to position 0. *)
Lemma operator_call_offset_wraps :
  exists a',
    reshape 64 0 array_3_4 [2 ^ 63 + 1; 2] row_major = Some a' /\
    m_strides a' = [2; 1] /\
    valid_index (m_shape a') [2 ^ 63; 0] /\
    length [2 ^ 63; 0] = length (m_strides a') /\
    dot [2 ^ 63; 0] (m_strides a') = 2 ^ 64 /\
    operator_call 64 a' [2 ^ 63; 0] = Some (Ref 0) /\
    operator_call_const 64 a' [2 ^ 63; 0] = Some (CRef 0) /\
    Z.of_nat 0 <> dot [2 ^ 63; 0] (m_strides a').
Proof.
  eexists. split; [vm_compute; reflexivity|].
  split; [reflexivity|].
  split; [repeat constructor; vm_compute; congruence|].
  split; [reflexivity|]. split; [reflexivity|].
  split; [vm_compute; reflexivity|]. split; [vm_compute; reflexivity|].
  vm_compute. discriminate.
Qed.

(** Explicit strides, shape [2^63 + 1, 2]: the three operations resize the
    buffer to 2 elements, the product [2^64 + 2] reduced modulo [2^64]. *)
Lemma explicit_strides_size_wraps :
  Forall (fun d => 0 < d < modulus 64) [2 ^ 63 + 1; 2] /\
  product [2 ^ 63 + 1; 2] = 2 ^ 64 + 2 /\
  size (reshape_strides 64 0 array_3_4 [2 ^ 63 + 1; 2] [2; 1]) = 2%nat /\
  size (construct_strides 64 0 [] [2 ^ 63 + 1; 2] [2; 1]) = 2%nat /\
  size (construct_strides_value 64 [] [2 ^ 63 + 1; 2] [2; 1] 7) = 2%nat /\
  Z.of_nat (size (reshape_strides 64 0 array_3_4 [2 ^ 63 + 1; 2] [2; 1]))
  <> product [2 ^ 63 + 1; 2].
Proof.
  split; [repeat constructor; vm_compute; reflexivity|].
  split; [reflexivity|]. split; [reflexivity|]. split; [reflexivity|].
  split; [reflexivity|]. vm_compute. discriminate.
Qed.

End Overflow.
